(** * webdriver-manager: Android SDK initialisation ([lib/cmds/initialize.ts])

    A shallow embedding of the provisioning code of [initialize.ts] and the
    properties its specification states about it: the device-descriptor
    naming codec, the download-target list, the process driver, the
    sequential promise runner, the hardware.ini editor and device creation. *)

From Stdlib Require Import ZArith Ascii String.
From stdpp Require Import base list strings gmap.

Local Open Scope Z_scope.

(** ** JavaScript strings and arrays

    A JavaScript string is a sequence of code units.  Every string the code
    builds or compares against is ASCII, so a code unit is an [ascii] and a
    string a [list ascii]; only the letters [a]..[z] change under
    [toUpperCase] (no code unit outside ASCII upper-cases to a letter of
    [DEFAULT]).  String literals of the source are written with [$]. *)

Module JS.

Abbreviation jsstring := (list ascii).

Definition lit (s : string) : jsstring := list_ascii_of_string s.

(** [s.length] *)
Definition len (s : jsstring) : Z := Z.of_nat (length s).

(** [s.slice(start, end)]: a negative index counts from the end, both are
    clamped to [0 .. s.length], an absent [end] is [s.length]. *)
Definition clamp (n i : Z) : Z :=
  if i <? 0 then Z.max (n + i) 0 else Z.min i n.

Definition slice {A} (s : list A) (start : Z) (stop : option Z) : list A :=
  let n := Z.of_nat (length s) in
  let from := clamp n start in
  let to := match stop with Some e => clamp n e | None => n end in
  take (Z.to_nat (Z.max (to - from) 0)) (drop (Z.to_nat from) s).

(** [a[i]]: [undefined] (here [None]) outside [0 .. a.length - 1]. *)
Definition index {A} (a : list A) (i : Z) : option A :=
  if i <? 0 then None else a !! Z.to_nat i.

(** String concatenation converts [undefined] to the text "undefined". *)
Definition to_str (v : option jsstring) : jsstring :=
  match v with Some s => s | None => lit "undefined" end.

(** [s.split(sep)] for a one-character separator: never empty. *)
Fixpoint split (sep : ascii) (s : jsstring) : list jsstring :=
  match s with
  | [] => [[]]
  | c :: s' =>
      if Ascii.eqb c sep then [] :: split sep s'
      else match split sep s' with
           | t :: ts => (c :: t) :: ts
           | [] => [[c]]
           end
  end.

(** [a.join(sep)] *)
Fixpoint join (sep : jsstring) (a : list jsstring) : jsstring :=
  match a with
  | [] => []
  | [t] => t
  | t :: ts => t ++ sep ++ join sep ts
  end.

(** [s.toUpperCase()] *)
Definition upper_ascii (c : ascii) : ascii :=
  let n := nat_of_ascii c in
  if (97 <=? n)%nat && (n <=? 122)%nat then ascii_of_nat (n - 32) else c.

Definition toUpperCase (s : jsstring) : jsstring := map upper_ascii s.

(** [a == b] on strings *)
Definition str_eqb (a b : jsstring) : bool := bool_decide (a = b).

(** [a.indexOf(x) == -1] *)
Definition not_indexOf (a : list jsstring) (x : jsstring) : bool :=
  negb (existsb (str_eqb x) a).

End JS.

Notation "$ s" := (JS.lit s) (at level 1, format "$ s").

(** ** Regular expressions

    The fragment of JavaScript's regular expressions the code uses, matched
    with Brzozowski derivatives. *)

Module Regex.

Inductive regex : Type :=
| Void
| Eps
| Chr (c : ascii)
| Range (lo hi : ascii)
| AnyChar
| Seq (r1 r2 : regex)
| Alt (r1 r2 : regex)
| Star (r : regex).

(** [r+] *)
Definition Plus (r : regex) : regex := Seq r (Star r).

Definition in_range (lo hi c : ascii) : bool :=
  (nat_of_ascii lo <=? nat_of_ascii c)%nat && (nat_of_ascii c <=? nat_of_ascii hi)%nat.

Fixpoint nullable (r : regex) : bool :=
  match r with
  | Void | Chr _ | Range _ _ | AnyChar => false
  | Eps | Star _ => true
  | Seq r1 r2 => nullable r1 && nullable r2
  | Alt r1 r2 => nullable r1 || nullable r2
  end.

Fixpoint deriv (c : ascii) (r : regex) : regex :=
  match r with
  | Void | Eps => Void
  | Chr c' => if Ascii.eqb c c' then Eps else Void
  | Range lo hi => if in_range lo hi c then Eps else Void
  | AnyChar => Eps
  | Seq r1 r2 =>
      if nullable r1 then Alt (Seq (deriv c r1) r2) (deriv c r2)
      else Seq (deriv c r1) r2
  | Alt r1 r2 => Alt (deriv c r1) (deriv c r2)
  | Star r1 => Seq (deriv c r1) (Star r1)
  end.

(** The whole of [s] matches [r]. *)
Fixpoint full_match (r : regex) (s : list ascii) : bool :=
  match s with
  | [] => nullable r
  | c :: s' => full_match (deriv c r) s'
  end.

(** [r.test(s)]: some substring of [s] matches [r] (no anchors, no flags). *)
Definition test (r : regex) (s : list ascii) : bool :=
  full_match (Seq (Star AnyChar) (Seq r (Star AnyChar))) s.

(** The language of a regular expression. *)
Inductive matches : regex -> list ascii -> Prop :=
| MEps : matches Eps []
| MChr c : matches (Chr c) [c]
| MRange lo hi c : in_range lo hi c = true -> matches (Range lo hi) [c]
| MAny c : matches AnyChar [c]
| MSeq r1 r2 s1 s2 : matches r1 s1 -> matches r2 s2 -> matches (Seq r1 r2) (s1 ++ s2)
| MAltL r1 r2 s : matches r1 s -> matches (Alt r1 r2) s
| MAltR r1 r2 s : matches r2 s -> matches (Alt r1 r2) s
| MStarNil r : matches (Star r) []
| MStarApp r s1 s2 : matches r s1 -> matches (Star r) s2 -> matches (Star r) (s1 ++ s2).

End Regex.

(** ** The device descriptor ([class AVDDescriptor]) *)

Inductive exn : Type :=
| TypeError.

Inductive completion (A : Type) : Type :=
| Normal (a : A)
| Throw (e : exn).
Arguments Normal {A} a.
Arguments Throw {A} e.

Definition cbind {A B} (m : completion A) (k : A -> completion B) : completion B :=
  match m with
  | Normal a => k a
  | Throw e => Throw e
  end.

Record AVDDescriptor : Type := mkAVD {
  api : JS.jsstring;
  platform : JS.jsstring;
  architecture : JS.jsstring;
  abi : JS.jsstring;
  name : JS.jsstring
}.

(** [/v[0-9]+[a-z]+/] *)
Definition variant_re : Regex.regex :=
  Regex.Seq (Regex.Chr "v")
    (Regex.Seq (Regex.Plus (Regex.Range "0" "9")) (Regex.Plus (Regex.Range "a" "z"))).

(** The last statement of the constructor: the derived [abi]. *)
Definition derive_abi (platform architecture : JS.jsstring) : JS.jsstring :=
  (if JS.str_eqb (JS.toUpperCase platform) $"DEFAULT" then [] else platform ++ $"/")
    ++ architecture.

(** [nameParts[nameParts.length - 2].slice(0, 3)]: a method call on
    [undefined] throws a [TypeError]. *)
Definition slice_of (v : option JS.jsstring) (start : Z) (stop : option Z)
  : completion JS.jsstring :=
  match v with
  | Some s => Normal (JS.slice s start stop)
  | None => Throw TypeError
  end.

(** The architecture part of a name, from its tokens. *)
Definition parse_architecture (nameParts : list JS.jsstring) : completion JS.jsstring :=
  let n := Z.of_nat (length nameParts) in
  let last := JS.to_str (JS.index nameParts (n - 1)) in
  if Regex.test variant_re last then
    cbind (slice_of (JS.index nameParts (n - 2)) 0 (Some 3)) (fun pre =>
      if JS.str_eqb pre $"arm"
      then Normal (JS.to_str (JS.index nameParts (n - 2)) ++ $"-" ++ last)
      else Normal last)
  else Normal last.

(** [new AVDDescriptor(api, platform, architecture)]; [platform] is [None]
    when the argument is [undefined], and then [api] holds a whole name. *)
Definition constructor (api : JS.jsstring) (platform : option JS.jsstring)
    (architecture : JS.jsstring) : completion AVDDescriptor :=
  match platform with
  | Some platform =>
      Normal {| api := api; platform := platform; architecture := architecture;
                abi := derive_abi platform architecture;
                name := JS.join $"-" [api; platform; architecture] |}
  | None =>
      let name := api in
      let nameParts := JS.split "-" name in
      let api := JS.to_str (JS.index nameParts 0) ++ $"-" ++ JS.to_str (JS.index nameParts 1) in
      cbind (parse_architecture nameParts) (fun architecture =>
        let platform :=
          JS.slice name (JS.len api + 1) (Some (- JS.len architecture - 1)) in
        Normal {| api := api; platform := platform; architecture := architecture;
                  abi := derive_abi platform architecture;
                  name := name |})
  end.

(** The two ways the constructor is called. *)
Definition fromComponents (api platform architecture : JS.jsstring) : completion AVDDescriptor :=
  constructor api (Some platform) architecture.

Definition fromName (name : JS.jsstring) : completion AVDDescriptor :=
  constructor name None [].

(** [desc.avdName(version)] *)
Definition avdName (desc : AVDDescriptor) (version : JS.jsstring) : JS.jsstring :=
  name desc ++ $"-v" ++ version ++ $"-wd-manager".

(** ** Case-insensitive comparison

    The specification compares platforms with the sentinel ignoring case; the
    code upper-cases the platform and compares with [DEFAULT]. *)

Definition lower_ascii (c : ascii) : ascii :=
  let n := nat_of_ascii c in
  if (65 <=? n)%nat && (n <=? 90)%nat then ascii_of_nat (n + 32) else c.

Definition toLowerCase (s : JS.jsstring) : JS.jsstring := map lower_ascii s.

Definition eq_nocase (a b : JS.jsstring) : Prop := toLowerCase a = toLowerCase b.

#[global] Instance eq_nocase_dec a b : Decision (eq_nocase a b).
Proof. unfold eq_nocase. apply _. Defined.


(** ** The download targets ([getAndroidSDKTargets]) *)

Definition getSysImgTarget (architecture platform level : JS.jsstring) : JS.jsstring :=
  let platform :=
    if JS.str_eqb (JS.toUpperCase platform) $"DEFAULT" then $"android" else platform in
  $"sys-img-" ++ architecture ++ $"-" ++ platform ++ $"-" ++ level.

(** The value of [targets] before the loop over [oldAVDs]. *)
Definition requested_targets (apiLevels architectures platforms : list JS.jsstring)
  : list JS.jsstring :=
  map (fun level => $"android-" ++ level) apiLevels ++
  fold_left
    (fun targets architecture =>
       targets ++
       concat (map (fun platform => map (getSysImgTarget architecture platform) apiLevels)
                   platforms))
    architectures [].

(** [if (targets.indexOf(x) == -1) { targets.push(x); }] *)
Definition push_missing (targets : list JS.jsstring) (x : JS.jsstring) : list JS.jsstring :=
  if JS.not_indexOf targets x then targets ++ [x] else targets.

(** The system-image target of a descriptor, as the loop computes it. *)
Definition sysImgTarget (avd : AVDDescriptor) : JS.jsstring :=
  getSysImgTarget (architecture avd) (platform avd)
    (JS.slice (api avd) (JS.len $"android-") None).

(** The body of [oldAVDs.forEach]. *)
Definition add_old_avd (targets : list JS.jsstring) (name : JS.jsstring)
  : completion (list JS.jsstring) :=
  cbind (fromName name) (fun avd =>
    let targets := push_missing targets (api avd) in
    Normal (push_missing targets (sysImgTarget avd))).

(** [a.forEach] with a body that updates a variable and may throw. *)
Fixpoint forEach {A S} (body : S -> A -> completion S) (a : list A) (s : S) : completion S :=
  match a with
  | [] => Normal s
  | x :: a' => cbind (body s x) (forEach body a')
  end.

Definition getAndroidSDKTargets (apiLevels architectures platforms oldAVDs : list JS.jsstring)
  : completion (list JS.jsstring) :=
  forEach add_old_avd oldAVDs (requested_targets apiLevels architectures platforms).

(** The order in which a list's distinct entries are first seen. *)
Fixpoint first_seen (l : list JS.jsstring) : list JS.jsstring :=
  match l with
  | [] => []
  | x :: l' => x :: filter (fun y => y <> x) (first_seen l')
  end.

(** ** Promises

    A promise chain runs its handlers one after the other on the event loop.
    It is embedded as a computation over the state [W] of the world the
    handlers act on, whose result is the state the promise ends in: fulfilled,
    rejected with a reason, or never settled.  The values these promises are
    fulfilled with ([null], [undefined]) are never inspected by the code and
    are embedded in [unit] where no handler reads them. *)

Inductive outcome (E A : Type) : Type :=
| Fulfilled (a : A)
| Rejected (e : E)
| Pending.
Arguments Fulfilled {E A} a.
Arguments Rejected {E A} e.
Arguments Pending {E A}.

Definition promise (W E A : Type) : Type := W -> outcome E A * W.

(** [q(v)] *)
Definition q {W E A} (v : A) : promise W E A := fun w => (Fulfilled v, w).

(** [p.then(onFulfilled, onRejected)] *)
Definition then2 {W E A B} (p : promise W E A)
    (onFulfilled : A -> promise W E B) (onRejected : E -> promise W E B) : promise W E B :=
  fun w =>
    match p w with
    | (Fulfilled a, w') => onFulfilled a w'
    | (Rejected e, w') => onRejected e w'
    | (Pending, w') => (Pending, w')
    end.

(** [p.then(onFulfilled)]: a rejection passes through. *)
Definition then_ {W E A B} (p : promise W E A) (onFulfilled : A -> promise W E B)
  : promise W E B :=
  then2 p onFulfilled (fun e w => (Rejected e, w)).

(** [const noop = () => {}] as a promise handler *)
Definition noop {W E A} (_ : A) : promise W E unit := q tt.

(** ** The sequential runner ([sequentialForEach]) *)

Definition sequentialForEach {W E T} (array : list T) (func : T -> promise W E unit)
  : promise W E unit :=
  fold_left (fun ret x => then_ ret (fun _ => func x)) array (q tt).

(** An operation that also records the items it was invoked on. *)
Definition traced {W E T A} (func : T -> promise W E A) : T -> promise (W * list T) E A :=
  fun x '(w, log) => let '(r, w') := func x w in (r, (w', log ++ [x])).

(** [func] is fulfilled on each item in turn, taking the world from [w] to [w']. *)
Inductive all_fulfilled {W E T} (func : T -> promise W E unit) : W -> list T -> W -> Prop :=
| all_fulfilled_nil w : all_fulfilled func w [] w
| all_fulfilled_cons w w1 w2 x xs :
    func x w = (Fulfilled tt, w1) ->
    all_fulfilled func w1 xs w2 ->
    all_fulfilled func w (x :: xs) w2.

(** ** The process driver ([runAndroidSDKCommand]) *)

(** What a promise of this file is rejected with: an exit code or an [Error]
    (here its message). *)
Inductive reason : Type :=
| ExitCode (code : Z)
| ErrorObject (message : JS.jsstring).

(** The events of a child process; the exit code is [null] (here [None]) when
    the process was ended by a signal. *)
Inductive child_event : Type :=
| Exit (code : option Z)
| Error (err : JS.jsstring).

(** A call on the deferred. *)
Inductive settlement : Type :=
| Resolve
| Reject (r : reason).

(** The variable [deferred] ([false] once it is [null]) and the calls made on
    the deferred so far. *)
Record driver : Type := mkDriver {
  deferred : bool;
  calls : list settlement
}.

Definition driver_init : driver := {| deferred := true; calls := [] |}.

(** [if (code)] on a number or [null] *)
Definition truthy (code : option Z) : option Z :=
  match code with
  | Some c => if c =? 0 then None else Some c
  | None => None
  end.

(** The handler of ['exit']. *)
Definition on_exit (code : option Z) (d : driver) : driver :=
  if deferred d then
    {| deferred := false;
       calls := calls d ++ [match truthy code with
                            | Some c => Reject (ExitCode c)
                            | None => Resolve
                            end] |}
  else d.

(** The handler of ['error']. *)
Definition on_error (err : JS.jsstring) (d : driver) : driver :=
  if deferred d then
    {| deferred := false; calls := calls d ++ [Reject (ErrorObject err)] |}
  else d.

Definition handle (d : driver) (ev : child_event) : driver :=
  match ev with
  | Exit code => on_exit code d
  | Error err => on_error err d
  end.

(** The state of [deferred.promise]: the first call settles it, later calls
    on a settled deferred change nothing. *)
Definition promise_state (cs : list settlement) : outcome reason unit :=
  match cs with
  | [] => Pending
  | Resolve :: _ => Fulfilled tt
  | Reject r :: _ => Rejected r
  end.

(** The driver after the events of its child. *)
Definition drive (events : list child_event) : driver :=
  fold_left handle events driver_init.

(** A call of [spawn]: the executable, its arguments, the [stdio] mode and
    the question and answer of [respondFactory] when one is configured. *)
Record invocation : Type := mkInvocation {
  exe : JS.jsstring;
  argv : list JS.jsstring;
  stdio : option JS.jsstring;
  responder : option (JS.jsstring * JS.jsstring)
}.

Section Tool.

(** The world the SDK tool acts on, [path.join], and [spawn] of [../utils]
    running the tool: the events the child emits and the world it leaves. *)
Variable W : Type.
Variable path_join : list JS.jsstring -> JS.jsstring.
Variable spawn : invocation -> W -> list child_event * W.

(** The call of [spawn] that [runAndroidSDKCommand] makes. *)
Definition tool_invocation (sdkPath cmd : JS.jsstring) (args : list JS.jsstring)
    (stdio : option JS.jsstring) (config_fun : option (JS.jsstring * JS.jsstring))
  : invocation :=
  {| exe := path_join [sdkPath; $"tools"; $"android"];
     argv := [cmd] ++ args; stdio := stdio; responder := config_fun |}.

Definition runAndroidSDKCommand (sdkPath cmd : JS.jsstring) (args : list JS.jsstring)
    (stdio : option JS.jsstring) (config_fun : option (JS.jsstring * JS.jsstring))
  : promise W reason unit :=
  fun w =>
    let '(events, w') := spawn (tool_invocation sdkPath cmd args stdio config_fun) w in
    (promise_state (calls (drive events)), w').

(** [respondFactory(question, answer)] *)
Definition respondFactory (question answer : JS.jsstring) : option (JS.jsstring * JS.jsstring) :=
  Some (question, answer).

(** ** Device creation ([makeAVD]) *)

Definition makeAVD (sdkPath : JS.jsstring) (desc : AVDDescriptor) (version : JS.jsstring)
  : promise W reason unit :=
  then_
    (then2 (runAndroidSDKCommand sdkPath $"delete" [$"avd"; $"--name"; avdName desc version]
              None None)
           noop noop)
    (fun _ =>
       runAndroidSDKCommand sdkPath $"create"
         [$"avd"; $"--name"; avdName desc version; $"--target"; api desc; $"--abi"; abi desc]
         (Some $"pipe")
         (respondFactory $"Do you wish to create a custom hardware profile" $"no")).

End Tool.

(** The calls of [spawn], recorded next to the world. *)
Definition logged {W} (spawn : invocation -> W -> list child_event * W)
  : invocation -> W * list invocation -> list child_event * (W * list invocation) :=
  fun inv '(w, log) => let '(evs, w') := spawn inv w in (evs, (w', log ++ [inv])).

(** ** The hardware configuration ([configureAVDHardware]) *)

(** The values of a parsed ini file.  A configuration object is embedded as
    a finite map from its keys: the order of the keys is not kept. *)
#[local] Unset Elimination Schemes.
Inductive ini_value : Type :=
| IString (s : JS.jsstring)
| INumber (n : Z)
| IBool (b : bool)
| INull
| ISection (m : gmap JS.jsstring ini_value)
| IArray (l : list ini_value).
#[local] Set Elimination Schemes.

(** The files of the SDK directory: path to contents. *)
Abbreviation filesystem := (gmap JS.jsstring JS.jsstring).

(** [q.nfcall(fs.stat, file)] *)
Definition fs_stat (file : JS.jsstring) : promise filesystem reason unit :=
  fun fs => match fs !! file with
            | Some _ => (Fulfilled tt, fs)
            | None => (Rejected (ErrorObject $"ENOENT"), fs)
            end.

(** [q.nfcall(fs.readFile, file)] *)
Definition fs_readFile (file : JS.jsstring) : promise filesystem reason JS.jsstring :=
  fun fs => match fs !! file with
            | Some contents => (Fulfilled contents, fs)
            | None => (Rejected (ErrorObject $"ENOENT"), fs)
            end.

(** [q.nfcall(fs.writeFile, file, data)]; the directory of the file is that
    of an installed system image and exists. *)
Definition fs_writeFile (file data : JS.jsstring) : promise filesystem reason unit :=
  fun fs => (Fulfilled tt, <[file := data]> fs).

(** The three assignments to [config]. *)
Definition hw_edit (config : gmap JS.jsstring ini_value) : gmap JS.jsstring ini_value :=
  <[$"hw.ramSize" := INumber 1024]>
    (<[$"hw.battery" := IString $"yes"]>
       (<[$"hw.keyboard" := IString $"yes"]> config)).

Definition fixed_keys : list JS.jsstring := [$"hw.keyboard"; $"hw.battery"; $"hw.ramSize"].

(** The text the editor loads: that of the file, or the empty text. *)
Definition loaded_text (file : JS.jsstring) (fs : filesystem) : JS.jsstring :=
  default [] (fs !! file).

Section Hardware.

(** [path.join] and the [ini] package. *)
Variable path_join : list JS.jsstring -> JS.jsstring.
Variable ini_parse : JS.jsstring -> gmap JS.jsstring ini_value.
Variable ini_stringify : gmap JS.jsstring ini_value -> JS.jsstring.

Definition hardware_ini (sdkPath : JS.jsstring) (desc : AVDDescriptor) : JS.jsstring :=
  path_join [sdkPath; $"system-images"; api desc; platform desc; architecture desc;
             $"hardware.ini"].

Definition configureAVDHardware (sdkPath : JS.jsstring) (desc : AVDDescriptor)
  : promise filesystem reason unit :=
  let file := hardware_ini sdkPath desc in
  then_
    (then2 (fs_stat file)
           (fun _ => fs_readFile file)
           (fun _ => q []))
    (fun contents =>
       let config := ini_parse contents in
       let config := hw_edit config in
       fs_writeFile file (ini_stringify config)).

(** What the editor leaves in the file, when it is fulfilled. *)
Definition edited (sdkPath : JS.jsstring) (desc : AVDDescriptor) (fs : filesystem)
  : filesystem := snd (configureAVDHardware sdkPath desc fs).

End Hardware.

(** A one-entry file format, an instance of the interface of the [ini]
    package: the file's text is kept under the key [raw]. *)
Module OneEntry.

Definition parse (s : JS.jsstring) : gmap JS.jsstring ini_value :=
  match s with
  | [] => ∅
  | _ => {[ $"raw" := IString s ]}
  end.

Definition stringify (c : gmap JS.jsstring ini_value) : JS.jsstring :=
  match c !! $"raw" with
  | Some (IString s) => s
  | _ => []
  end.

End OneEntry.

(** ** Vocabulary of the specification *)

(** A token has the variant form when it contains [v], one or more digits
    and one or more lower-case letters, in this order and next to each other. *)
Definition is_digit (c : ascii) : Prop := Regex.in_range "0" "9" c = true.
Definition is_lower (c : ascii) : Prop := Regex.in_range "a" "z" c = true.

Definition variant_token (t : JS.jsstring) : Prop :=
  exists pre ds ls post,
    t = pre ++ "v"%char :: ds ++ ls ++ post /\
    ds <> [] /\ ls <> [] /\ Forall is_digit ds /\ Forall is_lower ls.


(** The architectures a name can be decoded back to, next to a platform:
    one hyphen-free token, unless it has the variant form and the platform
    ends with a token starting with [arm]; or a token starting with [arm]
    followed by a token of the variant form. *)
Definition decodable_architecture (platform architecture : JS.jsstring) : Prop :=
  (("-"%char ∉ architecture) /\
   ~ (variant_token architecture /\
      exists t, last (JS.split "-" platform) = Some t /\ ($"arm" `prefix_of` t)))
  \/ (exists a b, architecture = a ++ $"-" ++ b /\ ("-"%char ∉ a) /\ ("-"%char ∉ b) /\
                  ($"arm" `prefix_of` a) /\ variant_token b).

(** The two targets a pre-existing device asks for. *)
Definition old_targets (avd : AVDDescriptor) : list JS.jsstring :=
  [api avd; sysImgTarget avd].

(** How often [x] occurs in [l]. *)
Definition occurrences (x : JS.jsstring) (l : list JS.jsstring) : nat :=
  length (filter (fun y => y = x) l).

(** ** Prompts ([respondFactory]) *)

Module JSText.

(** [s.startsWith(sub)], as [indexOf] tests it at one position *)
Fixpoint starts_with (sub s : JS.jsstring) : bool :=
  match sub, s with
  | [], _ => true
  | c :: sub', d :: s' => Ascii.eqb c d && starts_with sub' s'
  | _ :: _, [] => false
  end.

(** [s.indexOf(sub)]: the first position where [sub] occurs in [s], or -1. *)
Fixpoint indexOf_from (s sub : JS.jsstring) (i : Z) : Z :=
  if starts_with sub s then i
  else match s with
       | [] => -1
       | _ :: s' => indexOf_from s' sub (i + 1)
       end.

Definition indexOf (s sub : JS.jsstring) : Z := indexOf_from s sub 0.

(** The line feed of ['\n']. *)
Definition newline : ascii := "010"%char.

End JSText.

(** The listener [respondFactory] puts on the child's [stdout], on one chunk
    of data ([None] for [null]): what it writes to the child's [stdin]. *)
Definition respond_data (question answer : JS.jsstring) (data : option JS.jsstring)
  : list JS.jsstring :=
  match data with
  | Some text =>
      if JSText.indexOf text question =? -1 then []
      else [answer ++ [JSText.newline]]
  | None => []
  end.

(** All the listener writes while the child emits the chunks. *)
Definition respond (question answer : JS.jsstring) (chunks : list (option JS.jsstring))
  : list JS.jsstring :=
  concat (map (respond_data question answer) chunks).

(** [question] occurs in the chunk [data]. *)
Definition mentions (question : JS.jsstring) (data : option JS.jsstring) : Prop :=
  exists text before after, data = Some text /\ text = before ++ question ++ after.

(** ** Downloads ([downloadAndroidUpdates]) *)

Section Download.

Variable W : Type.
Variable path_join : list JS.jsstring -> JS.jsstring.
Variable spawn : invocation -> W -> list child_event * W.

(** The arguments after [update]. *)
Definition update_args (targets : list JS.jsstring) (search_all : bool) : list JS.jsstring :=
  [$"sdk"; $"-u"] ++ (if search_all then [$"-a"] else []) ++ [$"-t"; JS.join $"," targets].

(** Without [auto_accept] the configuration function is [noop], which leaves
    the child as it is: no responder. *)
Definition downloadAndroidUpdates (sdkPath : JS.jsstring) (targets : list JS.jsstring)
    (search_all auto_accept : bool) : promise W reason unit :=
  runAndroidSDKCommand W path_join spawn sdkPath $"update"
    (update_args targets search_all)
    (Some (if auto_accept then $"pipe" else $"inherit"))
    (if auto_accept then respondFactory $"Do you accept the license" $"y" else None).

End Download.

(** ** The provisioning run ([android]) and what it calls *)

(** What a run does that can be seen from outside, in order: the lines given
    to the logger and to the console, and the processes started. *)
Inductive action : Type :=
| Info (message : JS.jsstring)
| Console (message : JS.jsstring)
| Spawned (inv : invocation)
| SpawnedSync (command : JS.jsstring) (args : list JS.jsstring).

(** The world of a run: the state [S] of the SDK installation and the host
    beyond plain files, the files, and the actions so far. *)
Record world (S : Type) : Type := mkWorld {
  sdk : S;
  files : gmap JS.jsstring JS.jsstring;
  journal : list action
}.
Arguments mkWorld {S} sdk files journal.
Arguments sdk {S} w.
Arguments files {S} w.
Arguments journal {S} w.

(** A descriptor made from a path, and whether its [architecture] was given:
    with two path segments the third argument of the constructor is
    [undefined], the field stays [undefined], [join] writes it as the empty
    text and [+] as the text [undefined]. *)
Record discovered : Type := mkDiscovered {
  descriptor : AVDDescriptor;
  architecture_defined : bool
}.

Definition new_AVDDescriptor (api : JS.jsstring) (platform architecture : option JS.jsstring)
  : completion discovered :=
  match platform, architecture with
  | Some p, Some a =>
      cbind (constructor api (Some p) a) (fun d => Normal (mkDiscovered d true))
  | Some p, None =>
      Normal (mkDiscovered
                {| api := api; platform := p; architecture := [];
                   abi := derive_abi p $"undefined";
                   name := api ++ $"-" ++ p ++ $"-" |}
                false)
  | None, _ =>
      cbind (constructor api None []) (fun d => Normal (mkDiscovered d true))
  end.

(** The callback of [files.map] in [getAVDDescriptors]. *)
Definition descriptor_of_file (sep : ascii) (file : JS.jsstring) : completion discovered :=
  let info := JS.slice (JS.split sep file) (-3) None in
  new_AVDDescriptor (JS.to_str (JS.index info 0)) (JS.index info 1) (JS.index info 2).

(** [a.map(f)] with a callback that may throw. *)
Fixpoint map_completion {A B} (f : A -> completion B) (a : list A) : completion (list B) :=
  match a with
  | [] => Normal []
  | x :: a' => cbind (f x) (fun y => cbind (map_completion f a') (fun ys => Normal (y :: ys)))
  end.

Section Controller.

(** The collaborators of a run: [os.type()], [path.join] and [path.sep], the
    SDK tool behind [spawn], the installer behind [spawnSync], [glob] (its
    error, if any, and the paths found), the [ini] package and
    [JSON.stringify] on a list of names. *)
Variable S : Type.
Variable os_type : JS.jsstring.
Variable path_join : list JS.jsstring -> JS.jsstring.
Variable path_sep : ascii.
Variable tool : invocation -> S * gmap JS.jsstring JS.jsstring ->
                list child_event * (S * gmap JS.jsstring JS.jsstring).
Variable installer : JS.jsstring -> list JS.jsstring ->
                     S * gmap JS.jsstring JS.jsstring -> S * gmap JS.jsstring JS.jsstring.
Variable glob : JS.jsstring -> S * gmap JS.jsstring JS.jsstring ->
                option JS.jsstring * list JS.jsstring.
Variable ini_parse : JS.jsstring -> gmap JS.jsstring ini_value.
Variable ini_stringify : gmap JS.jsstring ini_value -> JS.jsstring.
Variable JSON_stringify : list JS.jsstring -> JS.jsstring.

Definition record (a : action) (w : world S) : world S :=
  {| sdk := sdk w; files := files w; journal := journal w ++ [a] |}.

(** [spawn] of [../utils] in the world of a run. *)
Definition spawn_tool (inv : invocation) (w : world S) : list child_event * world S :=
  let '(events, (s, fs)) := tool inv (sdk w, files w) in
  (events, {| sdk := s; files := fs; journal := journal w ++ [Spawned inv] |}).

(** [spawnSync(command, args, {stdio: 'inherit'})]; its result is dropped. *)
Definition spawnSync (command : JS.jsstring) (args : list JS.jsstring) (w : world S)
  : world S :=
  let '(s, fs) := installer command args (sdk w, files w) in
  {| sdk := s; files := fs; journal := journal w ++ [SpawnedSync command args] |}.

(** The outcome of a call of the tool in a world. *)
Definition tool_outcome (inv : invocation) (w : world S) : outcome reason unit :=
  promise_state (calls (drive (fst (spawn_tool inv w)))).

(** A promise on the files, in the world of a run. *)
Definition on_files {A} (p : promise (gmap JS.jsstring JS.jsstring) reason A)
  : promise (world S) reason A :=
  fun w => let '(r, fs) := p (files w) in
           (r, {| sdk := sdk w; files := fs; journal := journal w |}).

Definition haxm : JS.jsstring := $"Hardware_Accelerated_Execution_Manager".

Definition setupHardwareAcceleration (sdkPath : JS.jsstring) (w : world S) : world S :=
  if JS.str_eqb os_type $"Darwin" then
    spawnSync $"sudo"
      [path_join [sdkPath; $"extras"; $"intel"; haxm; $"silent_install.sh"]]
      (record (Console $"Enabling hardware acceleration (requires root access)") w)
  else if JS.str_eqb os_type $"Windows_NT" then
    spawnSync $"cmd"
      [$"/c"; $"runas"; $"/noprofile"; $"/user:Administrator";
       path_join [sdkPath; $"extras"; $"intel"; haxm; $"silent_install.bat"]]
      (record (Console $"Enabling hardware acceleration (requires admin access)") w)
  else w.

(** An exception thrown by the callback of [files.map] leaves the callback
    of [glob]: the promise is never settled. *)
Definition getAVDDescriptors (sdkPath : JS.jsstring)
  : promise (world S) reason (list discovered) :=
  fun w =>
    match glob (path_join [sdkPath; $"system-images"; $"*"; $"*"; $"*"]) (sdk w, files w) with
    | (Some err, _) => (Rejected (ErrorObject err), w)
    | (None, found) =>
        match map_completion (descriptor_of_file path_sep) found with
        | Normal descriptors => (Fulfilled descriptors, w)
        | Throw _ => (Pending, w)
        end
    end.

(** An exception thrown in a handler of [then] rejects the promise; a
    [TypeError] is the [Error] of that name. *)
Definition thrown {A} (e : exn) : promise (world S) reason A :=
  fun w => match e with
           | TypeError => (Rejected (ErrorObject $"TypeError"), w)
           end.

(** [configureAVDHardware] on a discovered descriptor: [path.join] throws a
    [TypeError] when the architecture is [undefined]. *)
Definition configure_discovered (sdkPath : JS.jsstring) (d : discovered)
  : promise (world S) reason unit :=
  if architecture_defined d then
    on_files (configureAVDHardware path_join ini_parse ini_stringify sdkPath (descriptor d))
  else thrown TypeError.

(** The tools of the first download. *)
Definition tools : list JS.jsstring :=
  [$"platform-tool"; $"tool"] ++
  (if JS.str_eqb os_type $"Darwin" || JS.str_eqb os_type $"Windows_NT"
   then [$"extra-intel-Hardware_Accelerated_Execution_Manager"] else []).

Definition setting_up (d : discovered) : JS.jsstring :=
  $"android-sdk: Setting up virtual device " ++ ["034"%char] ++ name (descriptor d)
    ++ ["034"%char].

Definition manifest (sdkPath : JS.jsstring) : JS.jsstring :=
  path_join [sdkPath; $"available_avds.json"].

(** The handlers after discovery; [avdDescriptors] is their argument. *)
Definition provision (sdkPath version : JS.jsstring) (avdDescriptors : list discovered)
  : promise (world S) reason unit :=
  then_
    (then_
       (then_
          (fun w =>
             sequentialForEach avdDescriptors (configure_discovered sdkPath)
               (record (Info $"android-sdk: Configuring virtual device hardware") w))
          (fun _ =>
             sequentialForEach avdDescriptors (fun d w =>
               makeAVD (world S) path_join spawn_tool sdkPath (descriptor d) version
                 (record (Info (setting_up d)) w))))
       (fun _ =>
          on_files (fs_writeFile (manifest sdkPath)
                      (JSON_stringify (map (fun d => name (descriptor d)) avdDescriptors)))))
    (fun _ w => (Fulfilled tt, record (Info $"android-sdk: Initialization complete") w)).

(** The promise [android] ends with [done()] on. *)
Definition android (sdkPath : JS.jsstring) (apiLevels architectures platforms : list JS.jsstring)
    (acceptLicenses : bool) (version : JS.jsstring) (oldAVDs : list JS.jsstring)
  : promise (world S) reason unit :=
  fun w =>
    then_
      (then_
         (then_
            (then_
               (downloadAndroidUpdates (world S) path_join spawn_tool sdkPath tools false
                  acceptLicenses)
               (fun _ w => (Fulfilled tt, setupHardwareAcceleration sdkPath w)))
            (fun _ w =>
               let w :=
                 record (Info ($"android-sdk: Downloading more additional SDK updates "
                               ++ $"(this may take a while)")) w in
               match getAndroidSDKTargets apiLevels architectures platforms oldAVDs with
               | Normal targets =>
                   downloadAndroidUpdates (world S) path_join spawn_tool sdkPath
                     ([$"build-tools-24.0.0"] ++ targets) true acceptLicenses w
               | Throw e => thrown e w
               end))
         (fun _ => getAVDDescriptors sdkPath))
      (provision sdkPath version)
      (record (Info $"android-sdk: Downloading additional SDK updates") w).

End Controller.

(** A path that ends in three segments, none of which has the separator. *)
Definition image_path (sep : ascii) (file a p r : JS.jsstring) : Prop :=
  (exists dir, file = dir ++ sep :: a ++ sep :: p ++ sep :: r) /\
  (sep ∉ a) /\ (sep ∉ p) /\ (sep ∉ r).

(** The calls of the SDK tool a run makes. *)
Definition update_call (path_join : list JS.jsstring -> JS.jsstring)
    (sdkPath : JS.jsstring) (targets : list JS.jsstring) (search_all auto_accept : bool)
  : invocation :=
  tool_invocation path_join sdkPath $"update" (update_args targets search_all)
    (Some (if auto_accept then $"pipe" else $"inherit"))
    (if auto_accept then respondFactory $"Do you accept the license" $"y" else None).

Definition delete_call (path_join : list JS.jsstring -> JS.jsstring)
    (sdkPath : JS.jsstring) (desc : AVDDescriptor) (version : JS.jsstring) : invocation :=
  tool_invocation path_join sdkPath $"delete"
    [$"avd"; $"--name"; avdName desc version] None None.

Definition create_call (path_join : list JS.jsstring -> JS.jsstring)
    (sdkPath : JS.jsstring) (desc : AVDDescriptor) (version : JS.jsstring) : invocation :=
  tool_invocation path_join sdkPath $"create"
    [$"avd"; $"--name"; avdName desc version; $"--target"; api desc; $"--abi"; abi desc]
    (Some $"pipe")
    (respondFactory $"Do you wish to create a custom hardware profile" $"no").

(** The lines of the logger. *)
Definition info_download : action :=
  Info $"android-sdk: Downloading additional SDK updates".
Definition info_download_more : action :=
  Info ($"android-sdk: Downloading more additional SDK updates "
        ++ $"(this may take a while)").
Definition info_configure : action :=
  Info $"android-sdk: Configuring virtual device hardware".
Definition info_complete : action :=
  Info $"android-sdk: Initialization complete".

(** A host for examples: Linux, a tool that exits with a fixed code, an
    installer that changes nothing, a [glob] that finds one system image or
    fails, the one-entry file format and names joined by commas for the
    manifest. *)
Module SampleHost.

Definition tool (code : Z) (inv : invocation) (st : unit * gmap JS.jsstring JS.jsstring)
  : list child_event * (unit * gmap JS.jsstring JS.jsstring) :=
  ([Exit (Some code)], st).

Definition installer (command : JS.jsstring) (args : list JS.jsstring)
    (st : unit * gmap JS.jsstring JS.jsstring) : unit * gmap JS.jsstring JS.jsstring := st.

Definition glob_image (pattern : JS.jsstring) (st : unit * gmap JS.jsstring JS.jsstring)
  : option JS.jsstring * list JS.jsstring :=
  (None, [$"/opt/sdk/system-images/android-24/default/x86"]).

Definition glob_error (pattern : JS.jsstring) (st : unit * gmap JS.jsstring JS.jsstring)
  : option JS.jsstring * list JS.jsstring :=
  (Some $"EACCES", []).

Definition start : world unit := mkWorld tt ∅ [].

Definition run (code : Z)
    (glob : JS.jsstring -> unit * gmap JS.jsstring JS.jsstring ->
            option JS.jsstring * list JS.jsstring)
    (oldAVDs : list JS.jsstring) : outcome reason unit * world unit :=
  android unit $"Linux" (JS.join $"/") "/" (tool code) installer glob
    OneEntry.parse OneEntry.stringify (JS.join $",")
    $"/opt/sdk" [$"24"] [$"x86"] [$"default"] true $"1" oldAVDs start.

End SampleHost.

(** * Properties *)

(** ** Facts about the string primitives *)

Section StringFacts.

Local Open Scope nat_scope.

Variable sep : ascii.

Lemma split_nonempty (s : JS.jsstring) : JS.split sep s <> [].
Proof.
  destruct s as [|c s]; simpl; [done|].
  destruct (Ascii.eqb c sep); [done|].
  destruct (JS.split sep s); done.
Qed.

Lemma split_snoc (s : JS.jsstring) : exists us u, JS.split sep s = us ++ [u].
Proof.
  destruct (JS.split sep s) as [|u us] eqn:E using rev_ind.
  - by apply split_nonempty in E.
  - eauto.
Qed.

Lemma split_cons_ne (c : ascii) (s : JS.jsstring) :
  c <> sep ->
  exists t ts, JS.split sep s = t :: ts /\ JS.split sep (c :: s) = (c :: t) :: ts.
Proof.
  intros Hc. simpl. apply Ascii.eqb_neq in Hc. rewrite Hc.
  destruct (JS.split sep s) as [|t ts] eqn:E.
  - by apply split_nonempty in E.
  - eauto.
Qed.

Lemma split_free (t : JS.jsstring) : sep ∉ t -> JS.split sep t = [t].
Proof.
  induction t as [|c t IH]; intros Hfree; [done|].
  apply not_elem_of_cons in Hfree as [Hc Ht].
  destruct (split_cons_ne c t) as (u & us & E1 & E2); [done|].
  rewrite E2. rewrite (IH Ht) in E1. by simplify_eq.
Qed.

(** Splitting distributes over a separator boundary. *)
Lemma split_app (a b : JS.jsstring) :
  JS.split sep (a ++ sep :: b) = JS.split sep a ++ JS.split sep b.
Proof.
  induction a as [|c a IH]; simpl.
  - by rewrite Ascii.eqb_refl.
  - destruct (Ascii.eqb c sep); [by rewrite IH|].
    rewrite IH. destruct (JS.split sep a) as [|t ts] eqn:E; [|done].
    by apply split_nonempty in E.
Qed.

Lemma join_split (s : JS.jsstring) : JS.join [sep] (JS.split sep s) = s.
Proof.
  induction s as [|c s IH]; [done|].
  simpl JS.split. destruct (Ascii.eqb_spec c sep) as [->|Hc].
  - destruct (JS.split sep s) as [|t ts] eqn:E; [by apply split_nonempty in E|].
    simpl in *. by rewrite IH.
  - destruct (JS.split sep s) as [|t ts] eqn:E; [by apply split_nonempty in E|].
    destruct ts; simpl in *; by rewrite <- IH.
Qed.

Lemma split_tokens_free (s t : JS.jsstring) : t ∈ JS.split sep s -> sep ∉ t.
Proof.
  revert t. induction s as [|c s IH]; intros t; simpl.
  - intros ->%list_elem_of_singleton. apply not_elem_of_nil.
  - destruct (Ascii.eqb_spec c sep) as [->|Hc].
    + intros [->|Ht]%elem_of_cons; [apply not_elem_of_nil | by apply IH].
    + destruct (JS.split sep s) as [|u us] eqn:E; [by apply split_nonempty in E|].
      intros [->|Ht]%elem_of_cons.
      * apply not_elem_of_cons. split; [done|]. apply IH. by left.
      * apply IH. by right.
Qed.

End StringFacts.

Section SliceFacts.

Context {A : Type}.

Lemma index_lookup (a : list A) (i : nat) : JS.index a (Z.of_nat i) = a !! i.
Proof.
  unfold JS.index. destruct (Z.ltb_spec (Z.of_nat i) 0); [lia|].
  by rewrite Nat2Z.id.
Qed.

Lemma index_before_start (a : list A) (i : Z) : i < 0 -> JS.index a i = None.
Proof. intros H. unfold JS.index. by destruct (Z.ltb_spec i 0); [|lia]. Qed.

(** [(x + c + p + d + y).slice(x.length + 1, -y.length - 1) = p] *)
Lemma slice_middle (x p y : list A) (c d : A) :
  JS.slice (x ++ c :: p ++ d :: y)
    (Z.of_nat (length x) + 1) (Some (- Z.of_nat (length y) - 1)) = p.
Proof.
  unfold JS.slice, JS.clamp.
  destruct (Z.ltb_spec (Z.of_nat (length x) + 1) 0); [lia|].
  destruct (Z.ltb_spec (- Z.of_nat (length y) - 1) 0); [|lia].
  replace (x ++ c :: p ++ d :: y) with ((x ++ [c]) ++ p ++ d :: y)
    by (by rewrite <- app_assoc).
  assert (Hlen : length ((x ++ [c]) ++ p ++ d :: y)
                 = (length x + 1 + length p + 1 + length y)%nat).
  { repeat (rewrite ?length_app; simpl). lia. }
  rewrite Hlen. rewrite Z.min_l by lia.
  rewrite drop_app_length' by (rewrite length_app; simpl; lia).
  rewrite take_app_length'; [done|lia].
Qed.

(** [s.slice(n)] drops the first [n] code units. *)
Lemma slice_from (s : list A) (n : nat) :
  JS.slice s (Z.of_nat n) None = drop n s.
Proof.
  unfold JS.slice, JS.clamp.
  destruct (Z.ltb_spec (Z.of_nat n) 0); [lia|].
  destruct (decide (n <= length s)%nat).
  - rewrite Z.min_l by lia. rewrite Nat2Z.id.
    apply take_ge. rewrite length_drop. lia.
  - rewrite Z.min_r by lia. rewrite Nat2Z.id.
    rewrite !drop_ge by lia. by rewrite take_nil.
Qed.

(** A slice that starts at the end or after it is empty. *)
Lemma slice_past_end (s : list A) (start : Z) (stop : option Z) :
  Z.of_nat (length s) <= start -> JS.slice s start stop = [].
Proof.
  intros H. unfold JS.slice, JS.clamp.
  destruct (Z.ltb_spec start 0); [lia|].
  rewrite Z.min_r by lia. rewrite Nat2Z.id, drop_all. apply take_nil.
Qed.

(** [s.slice(0, n)] keeps the first [n] code units. *)
Lemma slice_prefix (s : list A) (n : nat) :
  JS.slice s 0 (Some (Z.of_nat n)) = take n s.
Proof.
  unfold JS.slice, JS.clamp. simpl.
  destruct (Z.ltb_spec (Z.of_nat n) 0); [lia|].
  replace (0 `min` Z.of_nat (length s)) with 0 by lia.
  change (Z.to_nat 0) with 0%nat. rewrite drop_0, Z.sub_0_r.
  destruct (decide (n <= length s)%nat).
  - replace (Z.to_nat _) with n by lia. done.
  - replace (Z.to_nat _) with (length s) by lia.
    rewrite !take_ge by lia. done.
Qed.

End SliceFacts.

Ltac all_chars c :=
  destruct c as [[] [] [] [] [] [] [] []]; vm_compute; split; congruence.

Lemma fold_D c : JS.upper_ascii c = "D"%char <-> lower_ascii c = "d"%char.
Proof. all_chars c. Qed.
Lemma fold_E c : JS.upper_ascii c = "E"%char <-> lower_ascii c = "e"%char.
Proof. all_chars c. Qed.
Lemma fold_F c : JS.upper_ascii c = "F"%char <-> lower_ascii c = "f"%char.
Proof. all_chars c. Qed.
Lemma fold_A c : JS.upper_ascii c = "A"%char <-> lower_ascii c = "a"%char.
Proof. all_chars c. Qed.
Lemma fold_U c : JS.upper_ascii c = "U"%char <-> lower_ascii c = "u"%char.
Proof. all_chars c. Qed.
Lemma fold_L c : JS.upper_ascii c = "L"%char <-> lower_ascii c = "l"%char.
Proof. all_chars c. Qed.
Lemma fold_T c : JS.upper_ascii c = "T"%char <-> lower_ascii c = "t"%char.
Proof. all_chars c. Qed.

Lemma upper_DEFAULT_iff (p : JS.jsstring) :
  JS.toUpperCase p = $"DEFAULT" <-> eq_nocase p $"default".
Proof.
  unfold eq_nocase, JS.toUpperCase, toLowerCase.
  change (map lower_ascii $"default") with $"default".
  destruct p as [|c1 [|c2 [|c3 [|c4 [|c5 [|c6 [|c7 [|c8 p]]]]]]]];
    try (split; discriminate).
  unfold JS.lit; simpl.
  split; intros H; injection H as H1 H2 H3 H4 H5 H6 H7;
    apply fold_D in H1; apply fold_E in H2; apply fold_F in H3; apply fold_A in H4;
    apply fold_U in H5; apply fold_L in H6; apply fold_T in H7; congruence.
Qed.

(** ** Correctness of the derivative matcher *)

Module RegexFacts.
Import Regex.

Lemma nullable_spec (r : regex) : nullable r = true <-> matches r [].
Proof.
  induction r; simpl.
  - split; [done|]. inversion 1.
  - split; [constructor|done].
  - split; [done|]. inversion 1.
  - split; [done|]. inversion 1.
  - split; [done|]. inversion 1.
  - rewrite andb_true_iff, IHr1, IHr2. split.
    + intros [H1 H2]. apply (MSeq _ _ [] [] H1 H2).
    + inversion 1 as [| | | |? ? s1 s2 H1 H2 E1 E2| | | |]; subst.
      apply app_eq_nil in E2 as [-> ->]. done.
  - rewrite orb_true_iff, IHr1, IHr2. split.
    + intros [H|H]; [by apply MAltL | by apply MAltR].
    + inversion 1; subst; eauto.
  - split; [constructor|done].
Qed.

Lemma star_cons_inv (r : regex) (c : ascii) (s : list ascii) :
  matches (Star r) (c :: s) ->
  exists s1 s2, s = s1 ++ s2 /\ matches r (c :: s1) /\ matches (Star r) s2.
Proof.
  intros H. remember (Star r) as r' eqn:Er. remember (c :: s) as u eqn:Eu.
  revert s Eu. induction H as [| | | | | | | |r0 u1 u2 H1 _ H2 IH2];
    intros t Et; try discriminate.
  injection Er as ->. destruct u1 as [|c1 u1]; simpl in Et.
  - by apply IH2.
  - injection Et as -> <-. eauto.
Qed.

Lemma deriv_spec (r : regex) (c : ascii) (s : list ascii) :
  matches (deriv c r) s <-> matches r (c :: s).
Proof.
  revert s. induction r as [| |c'|lo hi| |r1 IH1 r2 IH2|r1 IH1 r2 IH2|r1 IH1];
    intros s; simpl.
  - split; inversion 1.
  - split; inversion 1.
  - destruct (Ascii.eqb_spec c c') as [->|Hc]; split; inversion 1; subst;
      try constructor; done.
  - destruct (in_range lo hi c) eqn:E; split; inversion 1; subst;
      try (by constructor); congruence.
  - split; inversion 1; subst; constructor.
  - assert (Hseq : matches (Seq (deriv c r1) r2) s ->  matches (Seq r1 r2) (c :: s)).
    { inversion 1 as [| | | |? ? s1 s2 H1 H2| | | |]; subst.
      apply IH1 in H1. apply (MSeq _ _ (c :: s1) s2 H1 H2). }
    assert (Hinv : matches (Seq r1 r2) (c :: s) ->
                   matches (Seq (deriv c r1) r2) s \/
                   (matches r1 [] /\ matches r2 (c :: s))).
    { inversion 1 as [| | | |? ? s1 s2 H1 H2 E1 E2| | | |]; subst.
      destruct s1 as [|c1 s1]; simpl in E2.
      - right. by subst.
      - injection E2 as -> <-. left. apply MSeq; [by apply IH1|done]. }
    destruct (nullable r1) eqn:En.
    + apply nullable_spec in En. split.
      * inversion 1; subst; [by apply Hseq|].
        apply (MSeq _ _ [] (c :: s) En). by apply IH2.
      * intros [H|[_ H]]%Hinv; [by apply MAltL|]. apply MAltR. by apply IH2.
    + split; [done|]. intros [H|[H _]]%Hinv; [done|].
      apply nullable_spec in H. congruence.
  - split.
    + inversion 1; subst; [apply MAltL; by apply IH1 | apply MAltR; by apply IH2].
    + inversion 1; subst; [apply MAltL; by apply IH1 | apply MAltR; by apply IH2].
  - split.
    + inversion 1 as [| | | |? ? s1 s2 H1 H2| | | |]; subst.
      apply IH1 in H1. apply (MStarApp _ (c :: s1) s2 H1 H2).
    + intros (s1 & s2 & -> & H1 & H2)%star_cons_inv.
      apply MSeq; [by apply IH1|done].
Qed.

Theorem full_match_spec (r : regex) (s : list ascii) :
  full_match r s = true <-> matches r s.
Proof.
  revert r. induction s as [|c s IH]; intros r; simpl.
  - apply nullable_spec.
  - rewrite IH. apply deriv_spec.
Qed.

Lemma star_any (s : list ascii) : matches (Star AnyChar) s.
Proof.
  induction s as [|c s IH]; [constructor|].
  apply (MStarApp _ [c] s); [constructor|done].
Qed.

(** [test] finds a matching substring. *)
Theorem test_spec (r : regex) (s : list ascii) :
  test r s = true <-> exists pre m post, s = pre ++ m ++ post /\ matches r m.
Proof.
  unfold test. rewrite full_match_spec. split.
  - inversion 1 as [| | | |? ? pre s2 _ H2| | | |]; subst.
    inversion H2 as [| | | |? ? m post Hm _| | | |]; subst. eauto.
  - intros (pre & m & post & -> & Hm).
    apply MSeq; [apply star_any|]. apply MSeq; [done|apply star_any].
Qed.

(** One or more characters of a range. *)
Lemma plus_range_spec (lo hi : ascii) (s : list ascii) :
  matches (Plus (Range lo hi)) s <->
  s <> [] /\ Forall (fun c => in_range lo hi c = true) s.
Proof.
  unfold Plus. split.
  - inversion 1 as [| | | |? ? s1 s2 H1 H2| | | |]; subst.
    inversion H1; subst. split; [done|]. constructor; [done|].
    clear H H1. remember (Star (Range lo hi)) as r' eqn:Er.
    induction H2; try discriminate; [constructor|].
    injection Er as ->. inversion H2_; subst. constructor; [done|]. by apply IHmatches2.
  - intros [Hne Hall]. destruct s as [|c s]; [done|].
    inversion Hall; subst. apply (MSeq _ _ [c] s); [by constructor|].
    clear Hne Hall H1. induction s as [|c' s IH]; [constructor|].
    inversion H2; subst. apply (MStarApp _ [c'] s); [by constructor|by apply IH].
Qed.

End RegexFacts.

Example decode_x86 :
  fromName $"android-24-default-x86" =
  Normal {| api := $"android-24"; platform := $"default"; architecture := $"x86";
            abi := $"x86"; name := $"android-24-default-x86" |}.
Proof. vm_compute. reflexivity. Qed.

Example decode_arm :
  fromName $"android-23-google_apis-armeabi-v7a" =
  Normal {| api := $"android-23"; platform := $"google_apis";
            architecture := $"armeabi-v7a"; abi := $"google_apis/armeabi-v7a";
            name := $"android-23-google_apis-armeabi-v7a" |}.
Proof. vm_compute. reflexivity. Qed.

Example decode_single_token : fromName $"v7a" = Throw TypeError.
Proof. vm_compute. reflexivity. Qed.

Example install_name :
  avdName (mkAVD $"android-24" $"default" $"x86" $"x86" $"android-24-default-x86") $"1"
  = $"android-24-default-x86-v1-wd-manager".
Proof. reflexivity. Qed.

Example targets_requested :
  getAndroidSDKTargets [$"24"] [$"x86"] [$"DEFAULT"] []
  = Normal [$"android-24"; $"sys-img-x86-android-24"].
Proof. reflexivity. Qed.

Example targets_with_old_device :
  getAndroidSDKTargets [$"24"] [$"x86"] [$"DEFAULT"] [$"android-23-default-x86"]
  = Normal [$"android-24"; $"sys-img-x86-android-24";
            $"android-23"; $"sys-img-x86-android-23"].
Proof. reflexivity. Qed.

Example targets_product :
  getAndroidSDKTargets [$"23"; $"24"] [$"x86"; $"armeabi-v7a"] [$"default"; $"google_apis"] []
  = Normal [$"android-23"; $"android-24";
            $"sys-img-x86-android-23"; $"sys-img-x86-android-24";
            $"sys-img-x86-google_apis-23"; $"sys-img-x86-google_apis-24";
            $"sys-img-armeabi-v7a-android-23"; $"sys-img-armeabi-v7a-android-24";
            $"sys-img-armeabi-v7a-google_apis-23"; $"sys-img-armeabi-v7a-google_apis-24"].
Proof. reflexivity. Qed.

Example targets_undecodable_name :
  getAndroidSDKTargets [$"24"] [$"x86"] [$"default"] [$"v7a"] = Throw TypeError.
Proof. reflexivity. Qed.

Example driver_signal_then_error :
  promise_state (calls (drive [Exit None; Error $"EPIPE"])) = Fulfilled tt /\
  calls (drive [Exit None; Error $"EPIPE"]) = [Resolve].
Proof. split; reflexivity. Qed.

Example driver_nonzero_exit :
  promise_state (calls (drive [Exit (Some 1)])) = Rejected (ExitCode 1).
Proof. reflexivity. Qed.


(** ** The descriptor codec *)

Lemma variant_re_spec (t : JS.jsstring) :
  Regex.test variant_re t = true <-> variant_token t.
Proof.
  rewrite RegexFacts.test_spec. unfold variant_token, variant_re. split.
  - intros (pre & m & post & -> & Hm).
    inversion Hm as [| | | |? ? s1 s2 H1 H2| | | |]; subst.
    inversion H1; subst.
    inversion H2 as [| | | |? ? ds ls Hd Hl| | | |]; subst.
    apply RegexFacts.plus_range_spec in Hd as [Hd1 Hd2].
    apply RegexFacts.plus_range_spec in Hl as [Hl1 Hl2].
    exists pre, ds, ls, post. simpl. rewrite <- !app_assoc. done.
  - intros (pre & ds & ls & post & -> & Hd1 & Hl1 & Hd2 & Hl2).
    exists pre, ("v"%char :: ds ++ ls), post. split.
    { simpl. by rewrite <- !app_assoc. }
    apply (Regex.MSeq _ _ ["v"%char] (ds ++ ls)); [constructor|].
    apply Regex.MSeq; by apply RegexFacts.plus_range_spec.
Qed.

Lemma arm_prefix_spec (t : JS.jsstring) :
  JS.str_eqb (JS.slice t 0 (Some 3)) $"arm" = true <-> $"arm" `prefix_of` t.
Proof.
  unfold JS.str_eqb. rewrite bool_decide_eq_true.
  change 3 with (Z.of_nat 3). rewrite slice_prefix. split.
  - intros H. exists (drop 3 t). rewrite <- H. by rewrite take_drop.
  - by intros [k ->].
Qed.

Lemma index_last_two (toks : list JS.jsstring) (sl l : JS.jsstring) :
  let n := Z.of_nat (length (toks ++ [sl; l])) in
  JS.index (toks ++ [sl; l]) (n - 1) = Some l /\
  JS.index (toks ++ [sl; l]) (n - 2) = Some sl.
Proof.
  simpl. rewrite length_app. simpl. split.
  - replace (_ - 1) with (Z.of_nat (length toks + 1)) by lia.
    rewrite index_lookup. rewrite lookup_app_r by lia.
    by replace (length toks + 1 - length toks)%nat with 1%nat by lia.
  - replace (_ - 2) with (Z.of_nat (length toks + 0)) by lia.
    rewrite index_lookup. rewrite lookup_app_r by lia.
    by replace (length toks + 0 - length toks)%nat with 0%nat by lia.
Qed.

(** The architecture of a name of two tokens or more. *)
Lemma parse_architecture_two (toks : list JS.jsstring) (sl l : JS.jsstring) :
  parse_architecture (toks ++ [sl; l]) =
  Normal (if Regex.test variant_re l && JS.str_eqb (JS.slice sl 0 (Some 3)) $"arm"
          then sl ++ $"-" ++ l else l).
Proof.
  unfold parse_architecture.
  destruct (index_last_two toks sl l) as [-> ->]. simpl.
  destruct (Regex.test variant_re l); [|done]. simpl.
  by destruct (JS.str_eqb _ _).
Qed.

(** The architecture of a name of one token: the lookup of the token before
    it is [undefined], and taking its [slice] throws. *)
Lemma parse_architecture_one (l : JS.jsstring) :
  parse_architecture [l] =
  if Regex.test variant_re l then Throw TypeError else Normal l.
Proof. unfold parse_architecture. simpl. by destruct (Regex.test variant_re l). Qed.

Lemma variant_arm_bool (sl l : JS.jsstring) :
  Regex.test variant_re l && JS.str_eqb (JS.slice sl 0 (Some 3)) $"arm" = true <->
  ($"arm" `prefix_of` sl) /\ variant_token l.
Proof. rewrite andb_true_iff, variant_re_spec, arm_prefix_spec. tauto. Qed.

Lemma fromName_two (n : JS.jsstring) (toks : list JS.jsstring) (sl l : JS.jsstring) :
  JS.split "-" n = toks ++ [sl; l] ->
  exists d, fromName n = Normal d /\
    architecture d =
      (if Regex.test variant_re l && JS.str_eqb (JS.slice sl 0 (Some 3)) $"arm"
       then sl ++ $"-" ++ l else l).
Proof.
  intros E. unfold fromName, constructor. rewrite E, parse_architecture_two. simpl.
  eexists. split; reflexivity.
Qed.

(** A name with a hyphen has two tokens or more. *)
Lemma split_two (n : JS.jsstring) :
  "-"%char ∈ n -> exists toks sl l, JS.split "-" n = toks ++ [sl; l].
Proof.
  intros (p & t & -> & Ht)%list_elem_of_split_r.
  rewrite split_app, (split_free _ t Ht).
  destruct (split_snoc "-" p) as (us & u & ->).
  exists us, u, t. by rewrite <- app_assoc.
Qed.

Lemma fromName_total (name : JS.jsstring) :
  "-"%char ∈ name -> exists d, fromName name = Normal d.
Proof.
  intros (toks & sl & l & E)%split_two.
  destruct (fromName_two _ _ _ _ E) as (d & Hd & _). eauto.
Qed.

Lemma fromName_name (n : JS.jsstring) (d : AVDDescriptor) :
  fromName n = Normal d -> name d = n.
Proof.
  unfold fromName, constructor.
  destruct (parse_architecture _); simpl; [|done]. by intros [= <-].
Qed.

(** C8: for every descriptor, built by either branch of the constructor, the
    derived [abi] is the architecture alone when the platform equals
    [default] ignoring case, and [platform + "/" + architecture] for any
    other platform. *)
Theorem abi_derivation (a : JS.jsstring) (p : option JS.jsstring) (r : JS.jsstring)
    (d : AVDDescriptor) :
  constructor a p r = Normal d ->
  abi d = if decide (eq_nocase (platform d) $"default") then architecture d
          else platform d ++ $"/" ++ architecture d.
Proof.
  intros H.
  assert (Habi : abi d = derive_abi (platform d) (architecture d)).
  { unfold constructor in H. destruct p as [p|].
    - by injection H as <-.
    - destruct (parse_architecture _); simpl in H; [by injection H as <-|done]. }
  rewrite Habi. unfold derive_abi, JS.str_eqb.
  destruct (decide (eq_nocase (platform d) $"default")) as [e|e];
    rewrite <- upper_DEFAULT_iff in e.
  - by rewrite bool_decide_eq_true_2.
  - rewrite bool_decide_eq_false_2 by done. by rewrite <- app_assoc.
Qed.

Lemma abi_derivation_witness :
  constructor $"android-23-Default-armeabi-v7a" None [] =
    Normal (mkAVD $"android-23" $"Default" $"armeabi-v7a" $"armeabi-v7a"
                  $"android-23-Default-armeabi-v7a") /\
  abi (mkAVD $"android-23" $"Default" $"armeabi-v7a" $"armeabi-v7a"
             $"android-23-Default-armeabi-v7a") = $"armeabi-v7a".
Proof.
  split; [vm_compute; reflexivity|].
  rewrite (abi_derivation $"android-23-Default-armeabi-v7a" None []);
    vm_compute; reflexivity.
Defined.

(** C2: when a name is decoded, its last hyphen-separated token is the
    architecture, unless the token before it starts with [arm] and the last
    token has the variant form [v], digits, letters: then the architecture is
    the two tokens joined by a hyphen.  So a name ending in [-armXYZ-v7a]
    has the two-token architecture and a name ending in [-x86] the
    architecture [x86]. *)
Theorem architecture_detection :
  (forall n toks sl l, JS.split "-" n = toks ++ [sl; l] ->
     exists d, fromName n = Normal d /\
       ((($"arm" `prefix_of` sl) /\ variant_token l -> architecture d = sl ++ $"-" ++ l) /\
        (~ (($"arm" `prefix_of` sl) /\ variant_token l) -> architecture d = l))) /\
  (forall p t, ("-"%char ∉ t) -> ($"arm" `prefix_of` t) ->
     exists d, fromName (p ++ $"-" ++ t ++ $"-v7a") = Normal d /\
               architecture d = t ++ $"-v7a") /\
  (forall p, exists d, fromName (p ++ $"-x86") = Normal d /\ architecture d = $"x86").
Proof.
  split; [|split].
  - intros n toks sl l E.
    destruct (fromName_two n toks sl l E) as (d & Hd & Ha).
    exists d. split; [done|]. rewrite Ha. split; intros H.
    + apply variant_arm_bool in H. by rewrite H.
    + destruct (_ && _) eqn:Eb; [|done]. by apply variant_arm_bool in Eb.
  - intros p t Ht Harm.
    destruct (split_snoc "-" p) as (us & u & Ep).
    assert (E : JS.split "-" (p ++ $"-" ++ t ++ $"-v7a") = (us ++ [u]) ++ [t; $"v7a"]).
    { change (p ++ $"-" ++ t ++ $"-v7a") with (p ++ "-"%char :: t ++ "-"%char :: $"v7a").
      by rewrite split_app, split_app, (split_free _ t Ht), Ep. }
    destruct (fromName_two _ _ _ _ E) as (d & Hd & Ha).
    exists d. split; [done|]. rewrite Ha.
    apply arm_prefix_spec in Harm. rewrite Harm. reflexivity.
  - intros p.
    destruct (split_snoc "-" p) as (us & u & Ep).
    assert (E : JS.split "-" (p ++ $"-x86") = us ++ [u; $"x86"]).
    { change (p ++ $"-x86") with (p ++ "-"%char :: $"x86").
      rewrite split_app, Ep. by rewrite <- app_assoc. }
    destruct (fromName_two _ _ _ _ E) as (d & Hd & Ha).
    exists d. split; [done|]. rewrite Ha. reflexivity.
Qed.

Lemma architecture_detection_witness :
  exists d, fromName $"android-23-google_apis-arm64-v8a" = Normal d /\
            architecture d = $"arm64-v8a".
Proof.
  destruct (proj1 architecture_detection $"android-23-google_apis-arm64-v8a"
              [$"android"; $"23"; $"google_apis"] $"arm64" $"v8a" eq_refl)
    as (d & Hd & Harm & _).
  exists d. split; [exact Hd|]. apply Harm. split.
  - by exists $"64".
  - exists [], [("8")%char], [("a")%char], []. repeat split; try done; by repeat constructor.
Defined.

(** A one-token name of the variant form cannot be decoded: the token before
    the last is [undefined]. *)
Lemma fromName_one_token (l : JS.jsstring) :
  ("-"%char ∉ l) ->
  fromName l = if Regex.test variant_re l then Throw TypeError
               else Normal (mkAVD (l ++ $"-undefined") [] l
                              (derive_abi [] l) l).
Proof.
  intros Hl. unfold fromName, constructor.
  rewrite (split_free _ l Hl), parse_architecture_one.
  destruct (Regex.test variant_re l); [done|]. simpl.
  rewrite slice_past_end; [done|].
  unfold JS.len. rewrite length_app. simpl. lia.
Qed.

(** The tokens of a canonical name whose api has two tokens. *)
Lemma split_canonical (t0 t1 p r : JS.jsstring) :
  ("-"%char ∉ t0) -> ("-"%char ∉ t1) ->
  JS.split "-" ((t0 ++ "-"%char :: t1) ++ "-"%char :: p ++ "-"%char :: r) =
  [t0; t1] ++ JS.split "-" p ++ JS.split "-" r.
Proof.
  intros H0 H1.
  by rewrite !split_app, (split_free _ t0 H0), (split_free _ t1 H1).
Qed.

Lemma parse_architecture_canonical (t0 t1 p r : JS.jsstring) :
  decodable_architecture p r ->
  parse_architecture ([t0; t1] ++ JS.split "-" p ++ JS.split "-" r) = Normal r.
Proof.
  destruct (split_snoc "-" p) as (us & u & Ep).
  intros [[Hr Hno]|(a & b & -> & Ha & Hb & Harm & Hvar)].
  - rewrite (split_free _ r Hr), Ep.
    replace ([t0; t1] ++ (us ++ [u]) ++ [r]) with (([t0; t1] ++ us) ++ [u; r])
      by (by rewrite <- !app_assoc).
    rewrite parse_architecture_two.
    destruct (_ && _) eqn:Eb; [|done].
    apply variant_arm_bool in Eb as [Hu Hv]. destruct Hno. split; [done|].
    exists u. by rewrite Ep, last_snoc.
  - change (a ++ $"-" ++ b) with (a ++ "-"%char :: b).
    rewrite split_app, (split_free _ a Ha), (split_free _ b Hb).
    replace ([t0; t1] ++ JS.split "-" p ++ [a] ++ [b])
      with (([t0; t1] ++ JS.split "-" p) ++ [a; b]) by (by rewrite <- !app_assoc).
    rewrite parse_architecture_two.
    by rewrite (proj2 (variant_arm_bool a b) (conj Harm Hvar)).
Qed.

(** What a successful decode of a canonical name tells about the components. *)
Lemma round_trip_necessary (a p r : JS.jsstring) (d : AVDDescriptor) :
  fromName (a ++ "-"%char :: p ++ "-"%char :: r) = Normal d ->
  api d = a -> architecture d = r ->
  (exists t0 t1, a = t0 ++ $"-" ++ t1 /\ ("-"%char ∉ t0) /\ ("-"%char ∉ t1)) /\
  decodable_architecture p r.
Proof.
  intros Hd Ha Hr. set (nm := a ++ "-"%char :: p ++ "-"%char :: r) in *.
  assert (Htoks : JS.split "-" nm = JS.split "-" a ++ JS.split "-" p ++ JS.split "-" r).
  { unfold nm. by rewrite !split_app. }
  destruct (split_two nm) as (front & sl & l & E).
  { unfold nm. set_solver. }
  destruct (fromName_two nm front sl l E) as (d' & Hd' & Harch).
  rewrite Hd in Hd'. injection Hd' as <-. split.
  - unfold fromName, constructor in Hd. rewrite E, parse_architecture_two in Hd.
    simpl in Hd. injection Hd as <-. simpl in Ha.
    assert (Hfree : forall t, t ∈ front ++ [sl; l] -> "-"%char ∉ t).
    { intros t Ht. apply (split_tokens_free "-" nm). by rewrite E. }
    destruct (front ++ [sl; l]) as [|x0 [|x1 rest]] eqn:Ef.
    + by destruct front.
    + by destruct front as [|? [|? ?]].
    + exists x0, x1. split; [by rewrite <- Ha|]. split; apply Hfree; set_solver.
  - rewrite Hr in Harch. destruct (_ && _) eqn:Eb.
    + apply variant_arm_bool in Eb as [Harm Hvar]. right. exists sl, l.
      split; [done|]. split; [|split; [|done]];
        apply (split_tokens_free "-" nm); rewrite E; set_solver.
    + left. assert (Hfree : "-"%char ∉ r).
      { rewrite Harch. apply (split_tokens_free "-" nm). rewrite E. set_solver. }
      split; [done|]. intros [Hvar (u & Hu & Harm)].
      destruct (split_snoc "-" p) as (ps & pu & Ep).
      rewrite Ep, last_snoc in Hu. injection Hu as ->.
      rewrite E, Ep, (split_free _ r Hfree), Harch in Htoks.
      replace (JS.split "-" a ++ (ps ++ [u]) ++ [l])
        with ((JS.split "-" a ++ ps) ++ [u; l]) in Htoks by (by rewrite <- !app_assoc).
      apply app_inj_2 in Htoks; [|done].
      destruct Htoks as [_ [= ->]].
      rewrite Harch in Hvar.
      by rewrite (proj2 (variant_arm_bool u l) (conj Harm Hvar)) in Eb.
Qed.

(** C1, as the code has it: a descriptor built from components is recovered
    from its canonical name exactly when its api is two hyphen-free tokens
    joined by a hyphen and its architecture is one the decoder recognises
    next to its platform ([decodable_architecture]). *)
Theorem name_round_trip (a p r : JS.jsstring) (d : AVDDescriptor) :
  fromComponents a p r = Normal d ->
  (fromName (name d) = Normal d <->
   (exists t0 t1, a = t0 ++ $"-" ++ t1 /\ ("-"%char ∉ t0) /\ ("-"%char ∉ t1)) /\
   decodable_architecture p r).
Proof.
  intros [= <-]. simpl.
  change (JS.join $"-" [a; p; r]) with (a ++ "-"%char :: p ++ "-"%char :: r).
  split.
  - intros Hd. by apply round_trip_necessary in Hd.
  - intros [(t0 & t1 & -> & H0 & H1) Hr]. unfold fromName, constructor.
    change (t0 ++ $"-" ++ t1) with (t0 ++ "-"%char :: t1).
    rewrite (split_canonical _ _ _ _ H0 H1), (parse_architecture_canonical _ _ _ _ Hr).
    simpl. unfold JS.len. rewrite slice_middle. reflexivity.
Qed.

Lemma name_round_trip_witness :
  fromName $"android-23-google_apis-armeabi-v7a" =
  Normal (mkAVD $"android-23" $"google_apis" $"armeabi-v7a" $"google_apis/armeabi-v7a"
                $"android-23-google_apis-armeabi-v7a").
Proof.
  apply (name_round_trip $"android-23" $"google_apis" $"armeabi-v7a"
           (mkAVD $"android-23" $"google_apis" $"armeabi-v7a" $"google_apis/armeabi-v7a"
                  $"android-23-google_apis-armeabi-v7a") eq_refl).
  split.
  - exists $"android", $"23". split; [reflexivity|]. split; compute_done.
  - right. exists $"armeabi", $"v7a". split; [reflexivity|].
    split; [compute_done|]. split; [compute_done|].
    split; [by exists $"eabi"|].
    exists [], [("7")%char], [("a")%char], []. repeat split; try done; by repeat constructor.
Defined.

(** C1 as stated fails: an api without a hyphen is not recovered. *)
Lemma name_round_trip_counterexample :
  ~ (forall a p r d, fromComponents a p r = Normal d ->
       exists d', fromName (name d) = Normal d' /\
                  api d' = a /\ platform d' = p /\ architecture d' = r).
Proof.
  intros H.
  destruct (H $"24" $"default" $"x86" _ eq_refl) as (d' & Hd & Ha & _).
  vm_compute in Hd. injection Hd as <-. discriminate Ha.
Qed.

(** ** The download targets *)

Section Targets.

Local Open Scope nat_scope.

Lemma push_missing_spec (targets : list JS.jsstring) (x : JS.jsstring) :
  push_missing targets x = if decide (x ∈ targets) then targets else targets ++ [x].
Proof.
  unfold push_missing, JS.not_indexOf.
  destruct (existsb (JS.str_eqb x) targets) eqn:E; simpl.
  - apply existsb_exists in E as (y & Hy & Hxy).
    apply bool_decide_eq_true in Hxy as ->.
    by rewrite decide_True by (by apply list_elem_of_In).
  - rewrite decide_False; [done|]. intros Hx.
    assert (existsb (JS.str_eqb x) targets = true); [|congruence].
    apply existsb_exists. exists x. split; [by apply list_elem_of_In|].
    by apply bool_decide_eq_true.
Qed.

Lemma first_seen_elem (x : JS.jsstring) (l : list JS.jsstring) :
  x ∈ first_seen l <-> x ∈ l.
Proof.
  induction l as [|y l IH]; simpl; [done|].
  rewrite !elem_of_cons, list_elem_of_filter, IH.
  destruct (decide (x = y)); tauto.
Qed.

Lemma first_seen_nodup (l : list JS.jsstring) : NoDup (first_seen l).
Proof.
  induction l as [|y l IH]; simpl; constructor.
  - rewrite list_elem_of_filter. tauto.
  - by apply NoDup_filter.
Qed.

Lemma first_seen_filter (P : JS.jsstring -> Prop) `{!forall x, Decision (P x)}
    (l : list JS.jsstring) :
  first_seen (filter P l) = filter P (first_seen l).
Proof.
  induction l as [|y l IH]; [done|]. simpl.
  rewrite !filter_cons. destruct (decide (P y)) as [Hy|Hy]; simpl.
  - rewrite IH, !list_filter_filter. f_equal. apply list_filter_iff. tauto.
  - rewrite IH, list_filter_filter. apply list_filter_iff.
    intros x. split; [|tauto]. intros Hx. split; [done|]. by intros ->.
Qed.

(** The loop appends, in the order they are first seen, the wanted targets
    that are not there yet. *)
Lemma fold_push_missing (wanted requested : list JS.jsstring) :
  fold_left push_missing wanted requested =
  requested ++ first_seen (filter (fun x => x ∉ requested) wanted).
Proof.
  revert requested. induction wanted as [|x wanted IH]; intros requested; simpl.
  - by rewrite app_nil_r.
  - rewrite IH, push_missing_spec, filter_cons.
    destruct (decide (x ∈ requested)) as [Hx|Hx].
    + by rewrite decide_False by (by intros ?).
    + rewrite decide_True by done. simpl. rewrite <- app_assoc. simpl. do 2 f_equal.
      rewrite <- first_seen_filter, list_filter_filter. f_equal.
      apply list_filter_iff. intros y. rewrite elem_of_app, list_elem_of_singleton.
      tauto.
Qed.

(** The loop over the pre-existing names, when no name fails to decode. *)
Lemma forEach_add_old (oldAVDs targets result : list JS.jsstring) :
  forEach add_old_avd oldAVDs targets = Normal result ->
  exists descs,
    Forall2 (fun n d => fromName n = Normal d) oldAVDs descs /\
    result = fold_left push_missing (concat (map old_targets descs)) targets.
Proof.
  revert targets. induction oldAVDs as [|n olds IH]; intros targets; simpl.
  - intros [= <-]. exists []. by split.
  - unfold add_old_avd at 1. destruct (fromName n) as [d|e] eqn:Ed; simpl; [|done].
    intros (descs & HF & ->)%IH. exists (d :: descs). split; [by constructor|done].
Qed.

Lemma forEach_add_old_total (oldAVDs targets : list JS.jsstring) :
  Forall (fun n => "-"%char ∈ n) oldAVDs ->
  exists result, forEach add_old_avd oldAVDs targets = Normal result.
Proof.
  intros H. revert targets. induction H as [|n olds Hn _ IH]; intros targets; simpl.
  - eauto.
  - unfold add_old_avd at 1. destruct (fromName_total n Hn) as (d & ->). simpl.
    apply IH.
Qed.

(** The shape of the builder's output. *)
Lemma targets_shape (apiLevels architectures platforms oldAVDs targets : list JS.jsstring) :
  getAndroidSDKTargets apiLevels architectures platforms oldAVDs = Normal targets ->
  exists descs,
    Forall2 (fun n d => fromName n = Normal d) oldAVDs descs /\
    targets =
      requested_targets apiLevels architectures platforms ++
      first_seen (filter (fun x => x ∉ requested_targets apiLevels architectures platforms)
                         (concat (map old_targets descs))).
Proof.
  unfold getAndroidSDKTargets. intros (descs & HF & ->)%forEach_add_old.
  exists descs. split; [done|]. apply fold_push_missing.
Qed.

Lemma occurrences_app (x : JS.jsstring) (l k : list JS.jsstring) :
  occurrences x (l ++ k) = occurrences x l + occurrences x k.
Proof. unfold occurrences. by rewrite filter_app, length_app. Qed.

Lemma occurrences_none (x : JS.jsstring) (l : list JS.jsstring) :
  x ∉ l <-> occurrences x l = 0.
Proof.
  unfold occurrences. induction l as [|y l IH].
  { split; [done|]. intros _. apply not_elem_of_nil. }
  rewrite filter_cons, not_elem_of_cons. destruct (decide (y = x)); simpl.
  - split; [intros [? _]; congruence|lia].
  - rewrite <- IH. split; [tauto|]. intros ?. split; [congruence|done].
Qed.

Lemma occurrences_nodup (x : JS.jsstring) (l : list JS.jsstring) :
  NoDup l -> x ∈ l -> occurrences x l = 1.
Proof.
  induction 1 as [|y l Hy Hl IH].
  - by intros ?%elem_of_nil.
  - unfold occurrences in *. rewrite filter_cons. intros [->|Hx]%elem_of_cons.
    + rewrite decide_True by done. simpl. f_equal.
      by apply occurrences_none in Hy.
    + rewrite decide_False by (by intros ->). by apply IH.
Qed.

End Targets.

(** C3, as the code has it: the builder returns a list whenever every
    pre-existing name has a hyphen, and the list it returns is free of
    duplicates exactly when the targets generated from the requested API
    levels, architectures and platforms are: the loop over the pre-existing
    devices never adds an entry twice, the requested part is not filtered. *)
Theorem targets_nodup (apiLevels architectures platforms oldAVDs : list JS.jsstring) :
  (Forall (fun n => "-"%char ∈ n) oldAVDs ->
   exists targets,
     getAndroidSDKTargets apiLevels architectures platforms oldAVDs = Normal targets) /\
  (forall targets,
     getAndroidSDKTargets apiLevels architectures platforms oldAVDs = Normal targets ->
     (NoDup targets <-> NoDup (requested_targets apiLevels architectures platforms))).
Proof.
  split.
  - apply forEach_add_old_total.
  - intros targets (descs & _ & ->)%targets_shape.
    rewrite NoDup_app. split; [tauto|]. intros Hreq.
    split; [done|]. split; [|apply first_seen_nodup].
    intros x Hx Hextra. apply first_seen_elem, list_elem_of_filter in Hextra.
    by destruct Hextra.
Qed.

Lemma targets_nodup_witness :
  NoDup [$"android-24"; $"sys-img-x86-android-24"; $"android-23";
         $"sys-img-armeabi-v7a-google_apis-23"].
Proof.
  apply (proj2 (targets_nodup [$"24"] [$"x86"] [$"default"]
                  [$"android-23-google_apis-armeabi-v7a"]) _ eq_refl).
  compute_done.
Defined.

(** C3 as stated fails: a level requested twice is listed twice. *)
Lemma targets_nodup_counterexample :
  ~ (forall apiLevels architectures platforms oldAVDs targets,
       getAndroidSDKTargets apiLevels architectures platforms oldAVDs = Normal targets ->
       NoDup targets).
Proof.
  intros H. specialize (H [$"24"; $"24"] [] [] [] _ eq_refl).
  apply NoDup_cons in H as [Hin _]. apply Hin. left.
Qed.

(** C7, as the code has it: for every pre-existing name that decodes, the
    output contains the descriptor's API-level target and its system-image
    target.  The output is the requested targets followed by the wanted
    targets missing from them, in the order they are first seen; so a wanted
    target occurs as often as among the requested targets when it is one of
    them, and once otherwise. *)
Theorem old_targets_included
    (apiLevels architectures platforms oldAVDs : list JS.jsstring) :
  (Forall (fun n => "-"%char ∈ n) oldAVDs ->
   exists targets,
     getAndroidSDKTargets apiLevels architectures platforms oldAVDs = Normal targets) /\
  (forall targets,
     getAndroidSDKTargets apiLevels architectures platforms oldAVDs = Normal targets ->
     let requested := requested_targets apiLevels architectures platforms in
     exists descs,
       Forall2 (fun n d => fromName n = Normal d) oldAVDs descs /\
       targets = requested ++
                 first_seen (filter (fun x => x ∉ requested) (concat (map old_targets descs))) /\
       forall d x, d ∈ descs -> x ∈ old_targets d ->
         x ∈ targets /\
         occurrences x targets = Nat.max 1 (occurrences x requested)).
Proof.
  split; [apply forEach_add_old_total|].
  intros targets (descs & HF & ->)%targets_shape requested. fold requested.
  exists descs. split; [done|]. split; [done|]. intros d x Hd Hx.
  assert (Hwanted : x ∈ concat (map old_targets descs)).
  { apply list_elem_of_In, in_concat. exists (old_targets d).
    split; [apply in_map|]; by apply list_elem_of_In. }
  rewrite elem_of_app, occurrences_app, first_seen_elem, list_elem_of_filter.
  destruct (decide (x ∈ requested)) as [Hin|Hout].
  - split; [by left|].
    assert (Hextra : x ∉ first_seen (filter (fun x => x ∉ requested)
                                       (concat (map old_targets descs)))).
    { rewrite first_seen_elem, list_elem_of_filter. tauto. }
    apply occurrences_none in Hextra. rewrite Hextra.
    assert (occurrences x requested <> 0%nat); [|lia].
    intros Hzero. by apply occurrences_none in Hzero.
  - split; [by right|].
    rewrite (proj1 (occurrences_none x requested) Hout).
    rewrite occurrences_nodup; [done|apply first_seen_nodup|].
    by rewrite first_seen_elem, list_elem_of_filter.
Qed.

Lemma old_targets_included_witness :
  let targets := [$"android-24"; $"sys-img-x86-android-24"; $"android-23";
                  $"sys-img-x86-android-23"] in
  getAndroidSDKTargets [$"24"] [$"x86"] [$"default"] [$"android-23-default-x86"]
    = Normal targets /\
  exists descs,
    Forall2 (fun n d => fromName n = Normal d) [$"android-23-default-x86"] descs /\
    forall d x, d ∈ descs -> x ∈ old_targets d ->
      x ∈ targets /\
      occurrences x targets =
        Nat.max 1 (occurrences x (requested_targets [$"24"] [$"x86"] [$"default"])).
Proof.
  intros targets. split; [reflexivity|].
  destruct (proj2 (old_targets_included [$"24"] [$"x86"] [$"default"]
                     [$"android-23-default-x86"]) targets eq_refl)
    as (descs & HF & _ & Hocc).
  exists descs. split; [exact HF|exact Hocc].
Defined.

(** C7 as stated fails: a wanted target that was requested twice occurs twice. *)
Lemma old_targets_included_counterexample :
  ~ (forall apiLevels architectures platforms oldAVDs targets n d,
       getAndroidSDKTargets apiLevels architectures platforms oldAVDs = Normal targets ->
       n ∈ oldAVDs -> fromName n = Normal d ->
       occurrences (api d) targets = 1%nat /\
       occurrences (sysImgTarget d) targets = 1%nat).
Proof.
  intros H.
  destruct (H [$"24"; $"24"] [] [] [$"android-24-default-x86"] _
              $"android-24-default-x86" _ eq_refl (list_elem_of_here _ _) eq_refl)
    as [Hapi _].
  vm_compute in Hapi. discriminate Hapi.
Qed.

(** ** The process driver *)

Lemma handle_settled (d : driver) (ev : child_event) :
  deferred d = false -> handle d ev = d.
Proof. intros H. destruct ev; simpl; unfold on_exit, on_error; by rewrite H. Qed.

Lemma fold_handle_settled (events : list child_event) (d : driver) :
  deferred d = false -> fold_left handle events d = d.
Proof.
  intros H. induction events as [|ev events IH]; simpl; [done|].
  by rewrite handle_settled.
Qed.

(** Only the first event of the child is acted on. *)
Lemma drive_cons (ev : child_event) (events : list child_event) :
  drive (ev :: events) = handle driver_init ev.
Proof. unfold drive. simpl. apply fold_handle_settled. by destruct ev. Qed.

Lemma drive_exit (code : option Z) (events : list child_event) :
  promise_state (calls (drive (Exit code :: events))) =
  match truthy code with
  | Some c => Rejected (ExitCode c)
  | None => Fulfilled tt
  end.
Proof. rewrite drive_cons. simpl. by destruct (truthy code). Qed.

Lemma drive_error (err : JS.jsstring) (events : list child_event) :
  promise_state (calls (drive (Error err :: events))) = Rejected (ErrorObject err).
Proof. by rewrite drive_cons. Qed.

Lemma truthy_spec (code : option Z) (c : Z) :
  truthy code = Some c <-> code = Some c /\ c <> 0.
Proof.
  destruct code as [z|]; simpl; [|by split; [|intros []]].
  destruct (Z.eqb_spec z 0); split; try intros [[= ->] ?]; try intros [= ->]; done.
Qed.

Lemma truthy_none (code : option Z) :
  truthy code = None <-> code = None \/ code = Some 0.
Proof.
  destruct code as [z|]; simpl; [|by split; [left|]].
  destruct (Z.eqb_spec z 0) as [->|Hz]; split; try done; try by right.
  intros [|[= ->]]; done.
Qed.

Section ToolFacts.

Variable W : Type.
Variable path_join : list JS.jsstring -> JS.jsstring.
Variable spawn : invocation -> W -> list child_event * W.

Lemma runAndroidSDKCommand_events sdkPath cmd args stdio config_fun (w : W) :
  runAndroidSDKCommand W path_join spawn sdkPath cmd args stdio config_fun w =
  (promise_state
     (calls (drive (fst (spawn (tool_invocation path_join sdkPath cmd args stdio config_fun) w)))),
   snd (spawn (tool_invocation path_join sdkPath cmd args stdio config_fun) w)).
Proof.
  unfold runAndroidSDKCommand, tool_invocation. simpl.
  by destruct (spawn _ w).
Qed.

(** C10: when the child's exit event fires (before any error event) with a
    falsy code, zero or [null], the promise of the driver is fulfilled; the
    exit event rejects it only for a truthy, that is nonzero, code. *)
Theorem exit_falsy_resolves sdkPath cmd args stdio config_fun (w : W)
    (code : option Z) (rest : list child_event) :
  fst (spawn (tool_invocation path_join sdkPath cmd args stdio config_fun) w) = Exit code :: rest ->
  let result :=
    fst (runAndroidSDKCommand W path_join spawn sdkPath cmd args stdio config_fun w) in
  (code = None \/ code = Some 0 -> result = Fulfilled tt) /\
  (forall r, result = Rejected r -> exists c, code = Some c /\ c <> 0 /\ r = ExitCode c).
Proof.
  intros Hev. rewrite runAndroidSDKCommand_events. simpl. rewrite Hev, drive_exit.
  split.
  - intros Hc. apply truthy_none in Hc. by rewrite Hc.
  - intros r. destruct (truthy code) as [c|] eqn:E; [|done].
    intros [= <-]. apply truthy_spec in E as [-> Hc]. eauto.
Qed.

(** C6, as the code has it: the promise is fulfilled exactly when the first
    event of the child is an exit with code zero or [null]; it is rejected
    with the exit code exactly when the first event is an exit with a nonzero
    code, and with the error exactly when the first event is an error; it
    stays pending when the child emits nothing; at most one call settles
    the deferred. *)
Theorem driver_settlement sdkPath cmd args stdio config_fun (w : W) :
  let events := fst (spawn (tool_invocation path_join sdkPath cmd args stdio config_fun) w) in
  let result :=
    fst (runAndroidSDKCommand W path_join spawn sdkPath cmd args stdio config_fun w) in
  (result = Fulfilled tt <->
     exists code rest, events = Exit code :: rest /\ (code = None \/ code = Some 0)) /\
  (forall c, result = Rejected (ExitCode c) <->
     exists rest, events = Exit (Some c) :: rest /\ c <> 0) /\
  (forall err, result = Rejected (ErrorObject err) <->
     exists rest, events = Error err :: rest) /\
  (result = Pending <-> events = []) /\
  (length (calls (drive events)) <= 1)%nat.
Proof.
  intros events result. unfold result. rewrite runAndroidSDKCommand_events. simpl.
  fold events. clearbody events. clear result.
  destruct events as [|[code|err] rest].
  - simpl. split; [|split; [|split; [|split]]].
    + split; [done|]. by intros (? & ? & ? & _).
    + intros c. split; [done|]. by intros (? & ? & _).
    + intros err. split; [done|]. by intros (? & ?).
    + done.
    + lia.
  - rewrite drive_exit, drive_cons. split; [|split; [|split; [|split]]].
    + split.
      * destruct (truthy code) eqn:E; [done|]. intros _. exists code, rest.
        split; [done|]. by apply truthy_none.
      * intros (code' & rest' & [= <- <-] & Hc). apply truthy_none in Hc. by rewrite Hc.
    + intros c. split.
      * destruct (truthy code) as [c'|] eqn:E; [|done]. intros [= ->].
        apply truthy_spec in E as [-> Hc]. eauto.
      * intros (rest' & [= -> <-] & Hc).
        by rewrite (proj2 (truthy_spec (Some c) c) (conj eq_refl Hc)).
    + intros err. split; [by destruct (truthy code)|]. by intros (rest' & [=]).
    + split; [by destruct (truthy code)|done].
    + simpl. lia.
  - rewrite drive_error, drive_cons. split; [|split; [|split; [|split]]].
    + split; [done|]. by intros (? & ? & [=] & _).
    + intros c. split; [done|]. by intros (? & [=] & _).
    + intros err'. split; [intros [= ->]; eauto|]. by intros (? & [= -> _]).
    + done.
    + simpl. lia.
Qed.

End ToolFacts.

(** C6 as stated fails: a child ended by a signal exits with code [null],
    not zero, and the promise is fulfilled. *)
Lemma driver_settlement_counterexample :
  ~ (forall events : list child_event,
       promise_state (calls (drive events)) = Fulfilled tt <-> Exit (Some 0) ∈ events).
Proof.
  intros H. assert (Hin : Exit (Some 0) ∈ [Exit None]) by (by apply H).
  apply list_elem_of_singleton in Hin. discriminate Hin.
Qed.

Lemma exit_falsy_resolves_witness :
  fst (runAndroidSDKCommand unit (JS.join $"/") (fun _ w => ([Exit None], w))
         $"/opt/sdk" $"delete" [$"avd"] None None tt) = Fulfilled tt.
Proof.
  apply (exit_falsy_resolves unit (JS.join $"/") (fun _ w => ([Exit None], w))
           $"/opt/sdk" $"delete" [$"avd"] None None tt None [] eq_refl).
  by left.
Defined.

(** ** The sequential runner *)

Section Runner.

Context {W E T : Type}.
Variable func : T -> promise W E unit.

Lemma sequentialForEach_snoc (array : list T) (x : T) :
  sequentialForEach (array ++ [x]) func =
  then_ (sequentialForEach array func) (fun _ => func x).
Proof. unfold sequentialForEach. by rewrite fold_left_app. Qed.

End Runner.

Section RunnerTrace.

Context {W E T : Type}.
Variable func : T -> promise W E unit.

(** While every operation is fulfilled the runner goes on, item by item. *)
Lemma sequential_all_fulfilled (array : list T) (w w' : W) :
  all_fulfilled func w array w' ->
  sequentialForEach array (traced func) (w, []) = (Fulfilled tt, (w', array)).
Proof.
  revert w'. induction array as [|x array IH] using rev_ind; intros w' H.
  - by inversion H.
  - assert (Hsplit : exists w1, all_fulfilled func w array w1 /\
                                func x w1 = (Fulfilled tt, w')).
    { clear IH. revert w H. induction array as [|y array IH]; intros w H; simpl in H.
      - inversion H as [|? ? ? ? ? Hx Hnil]; subst. inversion Hnil; subst.
        exists w. split; [constructor|done].
      - inversion H as [|? w1 ? ? ? Hy Hrest]; subst.
        destruct (IH _ Hrest) as (w2 & Harr & Hx).
        exists w2. split; [by econstructor|done]. }
    destruct Hsplit as (w1 & Harr & Hx).
    rewrite sequentialForEach_snoc. unfold then_, then2.
    rewrite (IH _ Harr). unfold traced. by rewrite Hx.
Qed.

(** Once the chain is rejected or stuck, no further operation runs. *)
Lemma sequential_stops (post : list T) (p : promise (W * list T) E unit)
    (s s' : W * list T) (r : outcome E unit) :
  p s = (r, s') -> r <> Fulfilled tt ->
  fold_left (fun ret x => then_ ret (fun _ => traced func x)) post p s = (r, s').
Proof.
  revert p. induction post as [|y post IH]; intros p Hp Hr; simpl; [done|].
  apply IH; [|done]. unfold then_, then2. rewrite Hp.
  destruct r as [[]| |]; done.
Qed.

(** The items the operation was invoked on are a prefix of the collection,
    and all of it when the runner's promise is fulfilled. *)
Lemma sequential_trace (array : list T) (w : W) :
  exists rest,
    array = snd (snd (sequentialForEach array (traced func) (w, []))) ++ rest /\
    (fst (sequentialForEach array (traced func) (w, [])) = Fulfilled tt -> rest = []).
Proof.
  induction array as [|x array IH] using rev_ind.
  - exists []. by split.
  - destruct IH as (rest & Harr & Hful).
    rewrite sequentialForEach_snoc. unfold then_, then2.
    destruct (sequentialForEach array (traced func) (w, []))
      as [[[]|e|] [w1 log]] eqn:Erun; simpl in *.
    + rewrite (Hful eq_refl), app_nil_r in Harr. subst log.
      destruct (func x w1) as [r w2]. simpl. exists []. by rewrite app_nil_r.
    + exists (rest ++ [x]). split; [|done]. by rewrite app_assoc, <- Harr.
    + exists (rest ++ [x]). split; [|done]. by rewrite app_assoc, <- Harr.
Qed.

Lemma sequential_trace_prefix (array : list T) (w : W) :
  exists rest,
    array = snd (snd (sequentialForEach array (traced func) (w, []))) ++ rest.
Proof. destruct (sequential_trace array w) as (rest & H & _). eauto. Qed.

(** C4: the runner invokes the operation on the items in the order of the
    collection; when the operation fails on an item, the runner's promise is
    rejected with that item's error and the operation has been invoked on
    the items up to that one and on no later item.  When no operation fails,
    it has been invoked on every item, in order. *)
Theorem sequential_fail_fast :
  (forall pre x post w w1 w2 e,
     all_fulfilled func w pre w1 ->
     func x w1 = (Rejected e, w2) ->
     sequentialForEach (pre ++ x :: post) (traced func) (w, [])
       = (Rejected e, (w2, pre ++ [x]))) /\
  (forall array w w',
     all_fulfilled func w array w' ->
     sequentialForEach array (traced func) (w, []) = (Fulfilled tt, (w', array))) /\
  (forall array w, exists rest,
     array = snd (snd (sequentialForEach array (traced func) (w, []))) ++ rest).
Proof.
  split; [|split].
  - intros pre x post w w1 w2 e Hpre Hx.
    unfold sequentialForEach. rewrite fold_left_app. simpl.
    apply sequential_stops; [|done].
    change (then_ (sequentialForEach pre (traced func)) (fun _ => traced func x) (w, [])
            = (Rejected e, (w2, pre ++ [x]))).
    unfold then_, then2. rewrite (sequential_all_fulfilled _ _ _ Hpre).
    unfold traced. by rewrite Hx.
  - apply sequential_all_fulfilled.
  - intros array w. apply sequential_trace_prefix.
Qed.

End RunnerTrace.

Lemma sequential_fail_fast_witness :
  sequentialForEach [1; 2; 3]
    (traced (fun (x : Z) (w : unit) =>
               if x =? 2 then (Rejected $"item 2 failed", w) else (Fulfilled tt, w)))
    (tt, [])
  = (Rejected $"item 2 failed", (tt, [1; 2])).
Proof.
  apply (proj1 (sequential_fail_fast
                  (fun (x : Z) (w : unit) =>
                     if x =? 2 then (Rejected $"item 2 failed", w) else (Fulfilled tt, w)))
           [1] 2 [3] tt tt tt $"item 2 failed").
  - apply (all_fulfilled_cons _ tt tt tt); [reflexivity|constructor].
  - reflexivity.
Defined.

(** ** Device creation *)

Section MakeAVD.

Variable W : Type.
Variable path_join : list JS.jsstring -> JS.jsstring.
Variable spawn : invocation -> W -> list child_event * W.

(** A child that emits an event settles the driver's promise. *)
Lemma drive_settles (events : list child_event) :
  events <> [] ->
  promise_state (calls (drive events)) = Fulfilled tt \/
  exists r, promise_state (calls (drive events)) = Rejected r.
Proof.
  destruct events as [|[code|err] rest]; [done|..]; intros _.
  - rewrite drive_exit. destruct (truthy code); eauto.
  - rewrite drive_error. eauto.
Qed.

(** C9: in device creation the outcome of the deletion is ignored: whether
    the delete command is fulfilled or rejected, the create command is then
    run for the same install-name, and the result of the device creation is
    the result of the create command. *)
Theorem makeAVD_ignores_delete (sdkPath : JS.jsstring) (desc : AVDDescriptor)
    (version : JS.jsstring) (w w1 w2 : W) (deleted created : list child_event) :
  let delete_call :=
    tool_invocation path_join sdkPath $"delete"
      [$"avd"; $"--name"; avdName desc version] None None in
  let create_call :=
    tool_invocation path_join sdkPath $"create"
      [$"avd"; $"--name"; avdName desc version; $"--target"; api desc; $"--abi"; abi desc]
      (Some $"pipe")
      (respondFactory $"Do you wish to create a custom hardware profile" $"no") in
  spawn delete_call w = (deleted, w1) ->
  deleted <> [] ->
  spawn create_call w1 = (created, w2) ->
  makeAVD (W * list invocation) path_join (logged spawn) sdkPath desc version (w, [])
  = (promise_state (calls (drive created)), (w2, [delete_call; create_call])).
Proof.
  intros delete_call create_call Hdel Hsettles Hcre.
  unfold makeAVD, then_, then2, runAndroidSDKCommand, logged.
  fold delete_call create_call. rewrite Hdel.
  destruct (drive_settles deleted Hsettles) as [->|[r ->]];
    unfold noop, q; by rewrite Hcre.
Qed.

(** A delete command whose child never emits an event leaves the device
    creation pending: the create command is not run. *)
Lemma makeAVD_delete_pending (sdkPath : JS.jsstring) (desc : AVDDescriptor)
    (version : JS.jsstring) (w w1 : W) :
  let delete_call :=
    tool_invocation path_join sdkPath $"delete"
      [$"avd"; $"--name"; avdName desc version] None None in
  spawn delete_call w = ([], w1) ->
  makeAVD (W * list invocation) path_join (logged spawn) sdkPath desc version (w, [])
  = (Pending, (w1, [delete_call])).
Proof.
  intros delete_call Hdel.
  unfold makeAVD, then_, then2, runAndroidSDKCommand, logged.
  fold delete_call. by rewrite Hdel.
Qed.

End MakeAVD.

Lemma makeAVD_ignores_delete_witness :
  let spawn := fun (inv : invocation) (w : unit) =>
    if JS.str_eqb (default [] (head (argv inv))) $"delete"
    then ([Exit (Some 1)], w) else ([Exit (Some 0)], w) in
  let desc := mkAVD $"android-24" $"default" $"x86" $"x86" $"android-24-default-x86" in
  makeAVD (unit * list invocation) (JS.join $"/") (logged spawn) $"/opt/sdk" desc $"1" (tt, [])
  = (promise_state (calls (drive [Exit (Some 0)])),
     (tt, [tool_invocation (JS.join $"/") $"/opt/sdk" $"delete"
             [$"avd"; $"--name"; avdName desc $"1"] None None;
           tool_invocation (JS.join $"/") $"/opt/sdk" $"create"
             [$"avd"; $"--name"; avdName desc $"1"; $"--target"; api desc;
              $"--abi"; abi desc]
             (Some $"pipe")
             (respondFactory $"Do you wish to create a custom hardware profile" $"no")])).
Proof.
  intros spawn desc.
  apply (makeAVD_ignores_delete unit (JS.join $"/") spawn $"/opt/sdk" desc $"1"
           tt tt tt [Exit (Some 1)] [Exit (Some 0)]).
  - reflexivity.
  - discriminate.
  - reflexivity.
Defined.

(** ** The hardware configuration *)

Lemma hw_edit_other (config : gmap JS.jsstring ini_value) (k : JS.jsstring) :
  k ∉ fixed_keys -> hw_edit config !! k = config !! k.
Proof.
  unfold fixed_keys, hw_edit. rewrite !not_elem_of_cons. intros (H1 & H2 & H3 & _).
  by rewrite !lookup_insert_ne.
Qed.

Lemma hw_edit_fixed (config : gmap JS.jsstring ini_value) :
  hw_edit config !! $"hw.keyboard" = Some (IString $"yes") /\
  hw_edit config !! $"hw.battery" = Some (IString $"yes") /\
  hw_edit config !! $"hw.ramSize" = Some (INumber 1024).
Proof.
  unfold hw_edit. repeat split.
  - rewrite !lookup_insert_ne by done. apply lookup_insert_eq.
  - rewrite lookup_insert_ne by done. apply lookup_insert_eq.
  - apply lookup_insert_eq.
Qed.

(** Two configurations that agree off the fixed keys are edited to the same
    configuration. *)
Lemma hw_edit_absorbs (c1 c2 : gmap JS.jsstring ini_value) :
  (forall k, k ∉ fixed_keys -> c1 !! k = c2 !! k) -> hw_edit c1 = hw_edit c2.
Proof.
  intros H. apply map_eq. intros k.
  destruct (decide (k ∈ fixed_keys)) as [Hk|Hk].
  - destruct (hw_edit_fixed c1) as (A1 & A2 & A3).
    destruct (hw_edit_fixed c2) as (B1 & B2 & B3).
    unfold fixed_keys in Hk. rewrite !elem_of_cons in Hk.
    destruct Hk as [->|[->|[->|Hk]]]; [congruence..|by apply elem_of_nil in Hk].
  - rewrite !hw_edit_other by done. by apply H.
Qed.

Section HardwareFacts.

Variable path_join : list JS.jsstring -> JS.jsstring.
Variable ini_parse : JS.jsstring -> gmap JS.jsstring ini_value.
Variable ini_stringify : gmap JS.jsstring ini_value -> JS.jsstring.

Lemma configureAVDHardware_run (sdkPath : JS.jsstring) (desc : AVDDescriptor)
    (fs : filesystem) :
  let file := hardware_ini path_join sdkPath desc in
  configureAVDHardware path_join ini_parse ini_stringify sdkPath desc fs =
  (Fulfilled tt,
   <[file := ini_stringify (hw_edit (ini_parse (loaded_text file fs)))]> fs).
Proof.
  unfold configureAVDHardware, then_, then2, fs_stat, fs_readFile, fs_writeFile, q,
    loaded_text. simpl.
  destruct (fs !! hardware_ini path_join sdkPath desc) as [contents|] eqn:E; simpl.
  - by rewrite E.
  - done.
Qed.

(** What the [ini] package is assumed to do: reading back the text written
    for an edited configuration gives, under every key but the three fixed
    ones, the value that was loaded. *)
Hypothesis ini_reread :
  forall (s k : JS.jsstring), k ∉ fixed_keys ->
    ini_parse (ini_stringify (hw_edit (ini_parse s))) !! k = ini_parse s !! k.


End HardwareFacts.

Lemma one_entry_reread (s k : JS.jsstring) :
  k ∉ fixed_keys ->
  OneEntry.parse (OneEntry.stringify (hw_edit (OneEntry.parse s))) !! k
  = OneEntry.parse s !! k.
Proof.
  intros _. f_equal. f_equal. unfold OneEntry.stringify.
  rewrite hw_edit_other by compute_done.
  destruct s as [|c s]; simpl; [done|]. by rewrite lookup_singleton_eq.
Qed.


(** * Further properties of the code *)

(** ** The decoder on short and on long names *)

(** The fields the decoder computes, read off a successful decode. *)
Lemma fromName_fields (n : JS.jsstring) (d : AVDDescriptor) :
  fromName n = Normal d ->
  name d = n /\
  api d = JS.to_str (JS.index (JS.split "-" n) 0) ++ $"-"
          ++ JS.to_str (JS.index (JS.split "-" n) 1) /\
  parse_architecture (JS.split "-" n) = Normal (architecture d) /\
  platform d = JS.slice n (JS.len (api d) + 1) (Some (- JS.len (architecture d) - 1)).
Proof.
  unfold fromName, constructor.
  destruct (parse_architecture (JS.split "-" n)) as [a|e]; simpl; [|done].
  by intros [= <-].
Qed.

Lemma fromName_throws (n : JS.jsstring) :
  fromName n = Throw TypeError <-> ("-"%char ∉ n) /\ variant_token n.
Proof.
  split.
  - intros Hthrow. destruct (decide ("-"%char ∈ n)) as [Hin|Hout].
    + destruct (fromName_total n Hin) as (d & Hd). congruence.
    + split; [done|]. rewrite (fromName_one_token n Hout) in Hthrow.
      apply variant_re_spec. by destruct (Regex.test variant_re n).
  - intros [Hout Hvar]. rewrite (fromName_one_token n Hout).
    apply variant_re_spec in Hvar. by rewrite Hvar.
Qed.

(** The decoder throws exactly on the one-token names of the variant form:
    there the token before the last is [undefined]. *)
Theorem fromName_throws_iff (n : JS.jsstring) :
  fromName n = Throw TypeError <-> ("-"%char ∉ n) /\ variant_token n.
Proof. apply fromName_throws. Qed.

(** A one-token name that is not of the variant form is decoded, with the
    text [undefined] in its api, an empty platform and a slash before the
    architecture in its abi. *)
Theorem fromName_one_token_fields (n : JS.jsstring) :
  ("-"%char ∉ n) -> ~ variant_token n ->
  fromName n = Normal (mkAVD (n ++ $"-undefined") [] n ($"/" ++ n) n).
Proof.
  intros Hout Hvar. rewrite (fromName_one_token n Hout).
  destruct (Regex.test variant_re n) eqn:E.
  - by apply variant_re_spec in E.
  - reflexivity.
Qed.

Lemma fromName_one_token_fields_witness :
  fromName $"x86" = Normal (mkAVD $"x86-undefined" [] $"x86" $"/x86" $"x86").
Proof.
  apply (fromName_one_token_fields $"x86").
  - compute_done.
  - intros Hvar. apply variant_re_spec in Hvar. vm_compute in Hvar. discriminate Hvar.
Defined.

Lemma join_app (sep : JS.jsstring) (a b : list JS.jsstring) :
  a <> [] -> b <> [] -> JS.join sep (a ++ b) = JS.join sep a ++ sep ++ JS.join sep b.
Proof.
  intros Ha Hb. induction a as [|t [|u a] IH]; [done|..].
  - simpl. by destruct b.
  - change (JS.join sep ((t :: u :: a) ++ b)) with (t ++ sep ++ JS.join sep ((u :: a) ++ b)).
    rewrite IH by done. simpl. by rewrite <- !app_assoc.
Qed.

(** Decoding a name and joining the three fields again gives the name back
    exactly when its tokens are two tokens for the api, one or more for the
    platform, and then those of the architecture; the platform is then the
    tokens in between, joined by hyphens. *)
Theorem decode_reencode (n : JS.jsstring) (d : AVDDescriptor) :
  fromName n = Normal d ->
  (JS.join $"-" [api d; platform d; architecture d] = n <->
   exists t0 t1 mid,
     mid <> [] /\
     JS.split "-" n = t0 :: t1 :: mid ++ JS.split "-" (architecture d) /\
     platform d = JS.join $"-" mid).
Proof.
  intros Hd. destruct (fromName_fields n d Hd) as (Hname & Hapi & Harch & Hplat).
  change (JS.join $"-" [api d; platform d; architecture d])
    with (api d ++ "-"%char :: platform d ++ "-"%char :: architecture d).
  split.
  - intros Hn.
    assert (Hfree0 : "-"%char ∉ JS.to_str (JS.index (JS.split "-" n) 0)).
    { destruct (JS.split "-" n) as [|x xs] eqn:E; [by apply split_nonempty in E|].
      simpl. apply (split_tokens_free "-" n). rewrite E. by left. }
    assert (Hfree1 : "-"%char ∉ JS.to_str (JS.index (JS.split "-" n) 1)).
    { destruct (JS.split "-" n) as [|x [|y xs]] eqn:E; simpl; [compute_done..|].
      apply (split_tokens_free "-" n). rewrite E. right. by left. }
    exists (JS.to_str (JS.index (JS.split "-" n) 0)),
           (JS.to_str (JS.index (JS.split "-" n) 1)), (JS.split "-" (platform d)).
    split; [apply split_nonempty|]. split; [|exact (eq_sym (join_split "-" _))].
    rewrite <- Hn at 1. rewrite Hapi at 1.
    change (?x ++ $"-" ++ ?y) with (x ++ "-"%char :: y).
    by rewrite !split_app, (split_free _ _ Hfree0), (split_free _ _ Hfree1).
  - intros (t0 & t1 & mid & Hmid & Hsplit & Hp).
    rewrite Hsplit in Hapi. simpl in Hapi.
    rewrite <- (join_split "-" n), Hsplit.
    change (t0 :: t1 :: mid ++ JS.split "-" (architecture d))
      with ([t0; t1] ++ (mid ++ JS.split "-" (architecture d))).
    rewrite join_app; [|done|by destruct mid].
    rewrite join_app; [|done|apply split_nonempty].
    rewrite join_split, Hp, Hapi. change ($"-") with ["-"%char].
    simpl. by rewrite <- !app_assoc.
Qed.

Lemma decode_reencode_witness :
  JS.join $"-" [$"android-23"; $"google_apis"; $"armeabi-v7a"]
  = $"android-23-google_apis-armeabi-v7a".
Proof.
  apply (decode_reencode $"android-23-google_apis-armeabi-v7a"
           (mkAVD $"android-23" $"google_apis" $"armeabi-v7a" $"google_apis/armeabi-v7a"
                  $"android-23-google_apis-armeabi-v7a") eq_refl).
  exists $"android", $"23", [$"google_apis"]. split; [done|]. split; reflexivity.
Defined.

(** ** The requested targets *)

Section RequestedTargets.

Local Open Scope nat_scope.

Lemma fold_left_app_acc {A B} (f : A -> list B) (l : list A) (acc : list B) :
  fold_left (fun targets x => targets ++ f x) l acc = acc ++ concat (map f l).
Proof.
  revert acc. induction l as [|x l IH]; intros acc; simpl.
  - by rewrite app_nil_r.
  - by rewrite IH, app_assoc.
Qed.

(** The [reduce] over the architectures as the nested loops it runs. *)
Lemma requested_targets_nested (apiLevels architectures platforms : list JS.jsstring) :
  requested_targets apiLevels architectures platforms =
  map (fun level => $"android-" ++ level) apiLevels ++
  concat (map (fun architecture =>
                 concat (map (fun platform =>
                                map (getSysImgTarget architecture platform) apiLevels)
                             platforms))
              architectures).
Proof. unfold requested_targets. by rewrite fold_left_app_acc. Qed.

Lemma requested_targets_mem
    (apiLevels architectures platforms : list JS.jsstring) (x : JS.jsstring) :
  x ∈ requested_targets apiLevels architectures platforms <->
  (exists l, l ∈ apiLevels /\ x = $"android-" ++ l) \/
  (exists a p l, a ∈ architectures /\ p ∈ platforms /\ l ∈ apiLevels /\
                 x = getSysImgTarget a p l).
Proof.
  rewrite requested_targets_nested, elem_of_app.
  rewrite !list_elem_of_In, in_map_iff, in_concat.
  split.
  - intros [(l & <- & Hl)|(ts & Hts & Hx)].
    + left. exists l. by rewrite list_elem_of_In.
    + right. apply in_map_iff in Hts as (a & <- & Ha).
      apply in_concat in Hx as (us & Hus & Hx).
      apply in_map_iff in Hus as (p & <- & Hp).
      apply in_map_iff in Hx as (l & <- & Hl).
      exists a, p, l. by rewrite !list_elem_of_In.
  - intros [(l & Hl & ->)|(a & p & l & Ha & Hp & Hl & ->)].
    + left. exists l. by rewrite <- list_elem_of_In.
    + right. rewrite list_elem_of_In in Ha, Hp, Hl.
      eexists. split; [apply in_map_iff; exists a; split; [reflexivity|done]|].
      apply in_concat. eexists.
      split; [apply in_map_iff; exists p; split; [reflexivity|done]|].
      apply in_map_iff. by exists l.
Qed.

(** The requested targets are the platform package of every level and the
    system image of every architecture, platform and level, nothing else. *)
Theorem requested_targets_elem
    (apiLevels architectures platforms : list JS.jsstring) (x : JS.jsstring) :
  x ∈ requested_targets apiLevels architectures platforms <->
  (exists l, l ∈ apiLevels /\ x = $"android-" ++ l) \/
  (exists a p l, a ∈ architectures /\ p ∈ platforms /\ l ∈ apiLevels /\
                 x = getSysImgTarget a p l).
Proof. apply requested_targets_mem. Qed.

Lemma length_concat_const {A B} (f : A -> list B) (l : list A) (k : nat) :
  (forall x, length (f x) = k) -> length (concat (map f l)) = length l * k.
Proof.
  intros H. induction l as [|x l IH]; simpl; [done|].
  by rewrite length_app, H, IH.
Qed.

(** One package per level and one system image per architecture, platform
    and level: with no level requested the list is empty. *)
Theorem requested_targets_length (apiLevels architectures platforms : list JS.jsstring) :
  length (requested_targets apiLevels architectures platforms) =
  length apiLevels + length architectures * (length platforms * length apiLevels).
Proof.
  rewrite requested_targets_nested, length_app, length_map. f_equal.
  apply length_concat_const. intros a.
  apply length_concat_const. intros p. apply length_map.
Qed.

(** The platform [default], in any case, is written [android] in a
    system-image target; every other platform is written as it is. *)
Theorem getSysImgTarget_platform (a p l : JS.jsstring) :
  getSysImgTarget a p l =
  if decide (eq_nocase p $"default") then $"sys-img-" ++ a ++ $"-android-" ++ l
  else $"sys-img-" ++ a ++ $"-" ++ p ++ $"-" ++ l.
Proof.
  unfold getSysImgTarget, JS.str_eqb.
  destruct (decide (eq_nocase p $"default")) as [e|e]; rewrite <- upper_DEFAULT_iff in e.
  - by rewrite bool_decide_eq_true_2.
  - by rewrite bool_decide_eq_false_2.
Qed.

End RequestedTargets.

(** ** The builder and the pre-existing names *)

Lemma forEach_app {A S} (body : S -> A -> completion S) (a b : list A) (s : S) :
  forEach body (a ++ b) s = cbind (forEach body a s) (forEach body b).
Proof.
  revert s. induction a as [|x a IH]; intros s; simpl; [done|].
  destruct (body s x); simpl; [apply IH|done].
Qed.

Lemma forEach_add_old_throws (oldAVDs targets : list JS.jsstring) :
  forEach add_old_avd oldAVDs targets = Throw TypeError <->
  exists n, n ∈ oldAVDs /\ fromName n = Throw TypeError.
Proof.
  revert targets. induction oldAVDs as [|n olds IH]; intros targets; simpl.
  - split; [done|]. by intros (n & Hn%elem_of_nil & _).
  - unfold add_old_avd at 1. destruct (fromName n) as [d|[]] eqn:Ed; simpl.
    + rewrite IH. split.
      * intros (m & Hm & Hthrow). exists m. split; [by right|done].
      * intros (m & [->|Hm]%elem_of_cons & Hthrow); [congruence|eauto].
    + split; [|done]. intros _. exists n. split; [by left|done].
Qed.

(** The builder throws, and returns no list at all, exactly when one of the
    pre-existing names is a single token of the variant form. *)
Theorem getAndroidSDKTargets_throws_iff
    (apiLevels architectures platforms oldAVDs : list JS.jsstring) :
  getAndroidSDKTargets apiLevels architectures platforms oldAVDs = Throw TypeError <->
  exists n, n ∈ oldAVDs /\ ("-"%char ∉ n) /\ variant_token n.
Proof.
  unfold getAndroidSDKTargets. rewrite forEach_add_old_throws.
  split; intros (n & Hn & H); exists n; (split; [done|]); by apply fromName_throws.
Qed.

Lemma push_missing_present (targets : list JS.jsstring) (x : JS.jsstring) :
  x ∈ targets -> push_missing targets x = targets.
Proof. intros H. rewrite push_missing_spec. by rewrite decide_True. Qed.

Lemma push_missing_elem (targets : list JS.jsstring) (x y : JS.jsstring) :
  y ∈ push_missing targets x <-> y ∈ targets \/ y = x.
Proof.
  rewrite push_missing_spec. destruct (decide (x ∈ targets)) as [Hx|Hx].
  - split; [by left|]. by intros [?| ->].
  - rewrite elem_of_app, list_elem_of_singleton. done.
Qed.

(** What the loop has seen stays in the list. *)
Lemma forEach_add_old_keeps (oldAVDs targets result : list JS.jsstring) (x : JS.jsstring) :
  forEach add_old_avd oldAVDs targets = Normal result -> x ∈ targets -> x ∈ result.
Proof.
  revert targets. induction oldAVDs as [|n olds IH]; intros targets; simpl.
  - by intros [= <-].
  - unfold add_old_avd at 1. destruct (fromName n) as [d|e]; simpl; [|done].
    intros Hrun Hx. apply (IH _ Hrun). rewrite !push_missing_elem. tauto.
Qed.

Lemma forEach_add_old_has (oldAVDs targets result : list JS.jsstring)
    (n : JS.jsstring) (d : AVDDescriptor) :
  forEach add_old_avd oldAVDs targets = Normal result ->
  n ∈ oldAVDs -> fromName n = Normal d ->
  api d ∈ result /\ sysImgTarget d ∈ result.
Proof.
  revert targets. induction oldAVDs as [|m olds IH]; intros targets; simpl.
  - by intros _ ?%elem_of_nil.
  - unfold add_old_avd at 1. destruct (fromName m) as [d'|e] eqn:Em; simpl; [|done].
    intros Hrun [->|Hn]%elem_of_cons Hd.
    + rewrite Hd in Em. injection Em as <-.
      split; apply (forEach_add_old_keeps _ _ _ _ Hrun); rewrite !push_missing_elem; tauto.
    + by apply (IH _ Hrun).
Qed.

(** A pre-existing name listed again changes nothing: the builder's result
    for the names followed by one of them is its result for the names. *)
Theorem getAndroidSDKTargets_repeated_name
    (apiLevels architectures platforms oldAVDs : list JS.jsstring) (n : JS.jsstring) :
  n ∈ oldAVDs ->
  getAndroidSDKTargets apiLevels architectures platforms (oldAVDs ++ [n]) =
  getAndroidSDKTargets apiLevels architectures platforms oldAVDs.
Proof.
  intros Hn. unfold getAndroidSDKTargets. rewrite forEach_app.
  destruct (forEach add_old_avd oldAVDs _) as [result|e] eqn:Erun; simpl; [|done].
  unfold add_old_avd. destruct (fromName n) as [d|[]] eqn:Ed; simpl.
  - destruct (forEach_add_old_has _ _ _ n d Erun Hn Ed) as [Hapi Hsys].
    by rewrite (push_missing_present _ _ Hapi), (push_missing_present _ _ Hsys).
  - assert (Hthrow : forEach add_old_avd oldAVDs
                       (requested_targets apiLevels architectures platforms)
                     = Throw TypeError) by (apply forEach_add_old_throws; eauto).
    congruence.
Qed.

Lemma getAndroidSDKTargets_repeated_name_witness :
  getAndroidSDKTargets [$"24"] [$"x86"] [$"default"]
    ([$"android-23-default-x86"; $"android-22-default-x86"] ++ [$"android-23-default-x86"])
  = getAndroidSDKTargets [$"24"] [$"x86"] [$"default"]
      [$"android-23-default-x86"; $"android-22-default-x86"].
Proof.
  apply (getAndroidSDKTargets_repeated_name [$"24"] [$"x86"] [$"default"]
           [$"android-23-default-x86"; $"android-22-default-x86"] $"android-23-default-x86").
  by left.
Defined.

(** The decode of a canonical name, field by field. *)
Lemma fromName_canonical (t0 t1 p r : JS.jsstring) :
  ("-"%char ∉ t0) -> ("-"%char ∉ t1) -> decodable_architecture p r ->
  fromName ((t0 ++ "-"%char :: t1) ++ "-"%char :: p ++ "-"%char :: r) =
  Normal (mkAVD (t0 ++ "-"%char :: t1) p r (derive_abi p r)
                ((t0 ++ "-"%char :: t1) ++ "-"%char :: p ++ "-"%char :: r)).
Proof.
  intros H0 H1 Hr. unfold fromName, constructor.
  rewrite (split_canonical _ _ _ _ H0 H1), (parse_architecture_canonical _ _ _ _ Hr).
  simpl. unfold JS.len. by rewrite slice_middle.
Qed.

Lemma add_old_avd_covered (targets : list JS.jsstring) (n : JS.jsstring)
    (d : AVDDescriptor) :
  fromName n = Normal d -> api d ∈ targets -> sysImgTarget d ∈ targets ->
  add_old_avd targets n = Normal targets.
Proof.
  intros Hd Hapi Hsys. unfold add_old_avd. rewrite Hd. simpl.
  by rewrite (push_missing_present _ _ Hapi), (push_missing_present _ _ Hsys).
Qed.

(** A pre-existing device whose level, platform and architecture are all
    requested adds no target: the builder returns the requested targets. *)
Theorem getAndroidSDKTargets_covered
    (apiLevels architectures platforms oldAVDs : list JS.jsstring) :
  Forall (fun n => exists l p a,
            n = $"android-" ++ l ++ $"-" ++ p ++ $"-" ++ a /\
            l ∈ apiLevels /\ p ∈ platforms /\ a ∈ architectures /\
            ("-"%char ∉ l) /\ decodable_architecture p a) oldAVDs ->
  getAndroidSDKTargets apiLevels architectures platforms oldAVDs =
  Normal (requested_targets apiLevels architectures platforms).
Proof.
  unfold getAndroidSDKTargets.
  induction 1 as [|n olds (l & p & a & -> & Hl & Hp & Ha & Hfree & Hdec) _ IH]; [done|].
  assert (Handroid : "-"%char ∉ $"android") by compute_done.
  pose proof (fromName_canonical $"android" l p a Handroid Hfree Hdec) as Hc.
  change (fromName ($"android-" ++ l ++ $"-" ++ p ++ $"-" ++ a) =
          Normal (mkAVD ($"android-" ++ l) p a (derive_abi p a)
                        ($"android-" ++ l ++ $"-" ++ p ++ $"-" ++ a))) in Hc.
  change (forEach add_old_avd (?n :: olds) ?ts)
    with (cbind (add_old_avd ts n) (forEach add_old_avd olds)).
  rewrite (add_old_avd_covered _ _ _ Hc); [exact IH|..].
  - apply requested_targets_mem. left. by exists l.
  - apply requested_targets_mem. right. exists a, p, l.
    repeat split; try done. unfold sysImgTarget. simpl api.
    change (JS.len $"android-") with (Z.of_nat 8). by rewrite slice_from.
Qed.

Lemma getAndroidSDKTargets_covered_witness :
  getAndroidSDKTargets [$"23"; $"24"] [$"x86"] [$"default"] [$"android-23-default-x86"]
  = Normal (requested_targets [$"23"; $"24"] [$"x86"] [$"default"]).
Proof.
  apply (getAndroidSDKTargets_covered [$"23"; $"24"] [$"x86"] [$"default"]
           [$"android-23-default-x86"]).
  repeat constructor. exists $"23", $"default", $"x86".
  split; [reflexivity|]. split; [by left|]. split; [by left|]. split; [by left|].
  split; [compute_done|]. left. split; [compute_done|].
  intros [Hvar _]. apply variant_re_spec in Hvar. vm_compute in Hvar. discriminate Hvar.
Defined.

(** ** The runner on concatenations and on operations that never settle *)

Section RunnerMore.

Context {W E T : Type}.
Variable func : T -> promise W E unit.

(** Running over a concatenation is running over its first part and then,
    when that was fulfilled, over its second part. *)
Theorem sequentialForEach_app (a b : list T) (w : W) :
  sequentialForEach (a ++ b) func w =
  then_ (sequentialForEach a func) (fun _ => sequentialForEach b func) w.
Proof.
  induction b as [|x b IH] using rev_ind.
  - rewrite app_nil_r. unfold then_, then2.
    by destruct (sequentialForEach a func w) as [[[]|e|] w'].
  - rewrite app_assoc, !sequentialForEach_snoc. unfold then_, then2 in *.
    rewrite IH. by destruct (sequentialForEach a func w) as [[[]|e|] w'].
Qed.

(** When the operation on an item never settles, neither does the runner,
    and no later item is touched. *)
Theorem sequentialForEach_pending (pre post : list T) (x : T) (w w1 w2 : W) :
  all_fulfilled func w pre w1 ->
  func x w1 = (Pending, w2) ->
  sequentialForEach (pre ++ x :: post) (traced func) (w, [])
  = (Pending, (w2, pre ++ [x])).
Proof.
  intros Hpre Hx. unfold sequentialForEach. rewrite fold_left_app. simpl.
  apply sequential_stops; [|done].
  change (then_ (sequentialForEach pre (traced func)) (fun _ => traced func x) (w, [])
          = (Pending, (w2, pre ++ [x]))).
  unfold then_, then2. rewrite (sequential_all_fulfilled _ _ _ _ Hpre).
  unfold traced. by rewrite Hx.
Qed.

End RunnerMore.

Lemma sequentialForEach_pending_witness :
  sequentialForEach ([1] ++ 2 :: [3])
    (traced (fun (x : Z) (w : unit) =>
               if x =? 2 then (@Pending JS.jsstring unit, w) else (Fulfilled tt, w)))
    (tt, [])
  = (Pending, (tt, [1] ++ [2])).
Proof.
  apply (sequentialForEach_pending
           (fun (x : Z) (w : unit) =>
              if x =? 2 then (@Pending JS.jsstring unit, w) else (Fulfilled tt, w))
           [1] [3] 2 tt tt tt).
  - apply (all_fulfilled_cons _ tt tt tt); [reflexivity|constructor].
  - reflexivity.
Defined.

(** ** Device creation when the deletion hangs *)

Lemma makeAVD_delete_pending_witness :
  let spawn := fun (inv : invocation) (w : unit) =>
    if JS.str_eqb (default [] (head (argv inv))) $"delete"
    then (@nil child_event, w) else ([Exit (Some 0)], w) in
  let desc := mkAVD $"android-24" $"default" $"x86" $"x86" $"android-24-default-x86" in
  makeAVD (unit * list invocation) (JS.join $"/") (logged spawn) $"/opt/sdk" desc $"1" (tt, [])
  = (Pending,
     (tt, [tool_invocation (JS.join $"/") $"/opt/sdk" $"delete"
             [$"avd"; $"--name"; avdName desc $"1"] None None])).
Proof.
  intros spawn desc.
  apply (makeAVD_delete_pending unit (JS.join $"/") spawn $"/opt/sdk" desc $"1" tt tt).
  reflexivity.
Defined.

(** ** The hardware editor on a missing file and on two images *)

Section HardwareMore.

Variable path_join : list JS.jsstring -> JS.jsstring.
Variable ini_parse : JS.jsstring -> gmap JS.jsstring ini_value.
Variable ini_stringify : gmap JS.jsstring ini_value -> JS.jsstring.


(** The editors of two images with different files commute. *)
Theorem configureAVDHardware_commute (sdkPath : JS.jsstring) (d1 d2 : AVDDescriptor)
    (fs : filesystem) :
  hardware_ini path_join sdkPath d1 <> hardware_ini path_join sdkPath d2 ->
  edited path_join ini_parse ini_stringify sdkPath d1
    (edited path_join ini_parse ini_stringify sdkPath d2 fs) =
  edited path_join ini_parse ini_stringify sdkPath d2
    (edited path_join ini_parse ini_stringify sdkPath d1 fs).
Proof.
  intros Hne. unfold edited. rewrite !configureAVDHardware_run. simpl.
  unfold loaded_text. rewrite !lookup_insert_ne by done.
  by apply insert_insert_ne.
Qed.

End HardwareMore.


Lemma configureAVDHardware_commute_witness :
  let d1 := mkAVD $"android-24" $"default" $"x86" $"x86" $"android-24-default-x86" in
  let d2 := mkAVD $"android-23" $"default" $"x86" $"x86" $"android-23-default-x86" in
  edited (JS.join $"/") OneEntry.parse OneEntry.stringify $"/opt/sdk" d1
    (edited (JS.join $"/") OneEntry.parse OneEntry.stringify $"/opt/sdk" d2 ∅) =
  edited (JS.join $"/") OneEntry.parse OneEntry.stringify $"/opt/sdk" d2
    (edited (JS.join $"/") OneEntry.parse OneEntry.stringify $"/opt/sdk" d1 ∅).
Proof.
  intros d1 d2.
  apply (configureAVDHardware_commute (JS.join $"/") OneEntry.parse OneEntry.stringify
           $"/opt/sdk" d1 d2 ∅).
  compute_done.
Defined.

(** ** Prompts *)

Lemma starts_with_spec (sub s : JS.jsstring) :
  JSText.starts_with sub s = true <-> sub `prefix_of` s.
Proof.
  revert s. induction sub as [|c sub IH]; intros s; simpl.
  - split; [intros _; apply prefix_nil|done].
  - destruct s as [|d s].
    + split; [done|]. by intros ?%prefix_nil_not.
    + rewrite andb_true_iff, IH. split.
      * intros [->%Ascii.eqb_eq Hp]. by apply prefix_cons.
      * intros Hp. pose proof (prefix_cons_inv_1 _ _ _ _ Hp) as ->.
        split; [apply Ascii.eqb_refl|by apply prefix_cons_inv_2 in Hp].
Qed.

Lemma indexOf_from_spec (s sub : JS.jsstring) (i : Z) :
  0 <= i ->
  (JSText.indexOf_from s sub i <> -1 <-> exists before after, s = before ++ sub ++ after).
Proof.
  revert i. induction s as [|c s IH]; intros i Hi.
  - simpl. destruct (JSText.starts_with sub []) eqn:E.
    + apply starts_with_spec in E as [k Hk]. split; [|lia].
      intros _. exists [], k. exact Hk.
    + split; [done|]. intros (before & after & H).
      destruct before; simpl in H; [|done].
      assert (JSText.starts_with sub [] = true); [|congruence].
      apply starts_with_spec. exists after. by rewrite <- H.
  - simpl. destruct (JSText.starts_with sub (c :: s)) eqn:E.
    + apply starts_with_spec in E as [k Hk]. split; [|lia].
      intros _. exists [], k. exact Hk.
    + rewrite IH by lia. split.
      * intros (before & after & ->). by exists (c :: before), after.
      * intros (before & after & H). destruct before as [|b before]; simpl in H.
        -- assert (JSText.starts_with sub (c :: s) = true); [|congruence].
           apply starts_with_spec. exists after. by rewrite <- H.
        -- injection H as -> ->. eauto.
Qed.

Lemma respond_data_cases (question answer : JS.jsstring) (data : option JS.jsstring) :
  (mentions question data ->
   respond_data question answer data = [answer ++ [JSText.newline]]) /\
  (~ mentions question data -> respond_data question answer data = []).
Proof.
  unfold respond_data, mentions. destruct data as [text|].
  - destruct (Z.eqb_spec (JSText.indexOf text question) (-1)) as [E|E].
    + split; [|done]. intros (t & before & after & [= <-] & Ht).
      exfalso. revert E. apply indexOf_from_spec; [done|eauto].
    + split; [done|]. intros Hno. exfalso. apply Hno.
      apply indexOf_from_spec in E as (before & after & Ht); [|done].
      by exists text, before, after.
  - split; [|done]. by intros (t & before & after & [=] & _).
Qed.

(** The listener answers a chunk exactly when the question occurs in it, and
    then with the answer and a line feed; [null] is never answered. *)
Theorem respond_data_spec (question answer : JS.jsstring) (data : option JS.jsstring) :
  (mentions question data ->
   respond_data question answer data = [answer ++ [JSText.newline]]) /\
  (~ mentions question data -> respond_data question answer data = []).
Proof. apply respond_data_cases. Qed.

Lemma respond_data_spec_witness :
  respond_data $"Do you accept the license" $"y"
    (Some $"Do you accept the license 'android-sdk-license' [y/n]: ")
  = [$"y" ++ [JSText.newline]].
Proof.
  apply (proj1 (respond_data_spec $"Do you accept the license" $"y"
                  (Some $"Do you accept the license 'android-sdk-license' [y/n]: "))).
  exists $"Do you accept the license 'android-sdk-license' [y/n]: ",
         [], $" 'android-sdk-license' [y/n]: ".
  split; reflexivity.
Defined.

Lemma respond_data_short (question answer text : JS.jsstring) :
  (length text < length question)%nat -> respond_data question answer (Some text) = [].
Proof.
  intros Hlen. apply respond_data_cases.
  intros (t & before & after & [= <-] & Ht).
  apply (f_equal length) in Ht. rewrite !length_app in Ht. lia.
Qed.

(** The listener looks at one chunk at a time: when every chunk is shorter
    than the question nothing is written, whatever the chunks add up to. *)
Theorem respond_short_chunks (question answer : JS.jsstring)
    (chunks : list (option JS.jsstring)) :
  Forall (fun data => forall text, data = Some text ->
                        (length text < length question)%nat) chunks ->
  respond question answer chunks = [].
Proof.
  unfold respond. induction 1 as [|data chunks Hdata _ IH]; simpl; [done|].
  rewrite IH, app_nil_r. destruct data as [text|]; [|done].
  apply respond_data_short. by apply Hdata.
Qed.

(** So a question that arrives split over two chunks is not answered. *)
Lemma respond_short_chunks_witness :
  respond $"Do you accept the license" $"y"
    [Some $"Do you accept "; Some $"the license [y/n]: "] = [].
Proof.
  apply (respond_short_chunks $"Do you accept the license" $"y"
           [Some $"Do you accept "; Some $"the license [y/n]: "]).
  apply Forall_cons; split; [|apply Forall_cons; split; [|apply Forall_nil_2]];
    intros text [= <-]; vm_compute; lia.
Defined.

(** ** Downloads *)

Lemma split_join (sep : ascii) (ts : list JS.jsstring) :
  ts <> [] -> Forall (fun t => sep ∉ t) ts -> JS.split sep (JS.join [sep] ts) = ts.
Proof.
  intros Hne Hfree. induction Hfree as [|t ts Ht Hts IH]; [done|].
  destruct ts as [|u ts].
  - simpl. by apply split_free.
  - change (JS.join [sep] (t :: u :: ts)) with (t ++ sep :: JS.join [sep] (u :: ts)).
    rewrite split_app, (split_free _ t Ht), IH by done. done.
Qed.

(** A download starts one process, whatever the number of targets; its
    arguments are [update sdk -u], [-a] when all packages are searched, and
    [-t] with the targets joined by commas, from which the targets are read
    back when there is one at least and none has a comma. *)
Theorem downloadAndroidUpdates_call {W : Type} (path_join : list JS.jsstring -> JS.jsstring)
    (spawn : invocation -> W -> list child_event * W)
    (sdkPath : JS.jsstring) (targets : list JS.jsstring) (search_all auto_accept : bool)
    (w : W) :
  targets <> [] -> Forall (fun t => ","%char ∉ t) targets ->
  exists inv joined,
    snd (snd (downloadAndroidUpdates (W * list invocation) path_join (logged spawn)
                sdkPath targets search_all auto_accept (w, []))) = [inv] /\
    argv inv = [$"update"; $"sdk"; $"-u"] ++ (if search_all then [$"-a"] else [])
               ++ [$"-t"; joined] /\
    JS.split "," joined = targets.
Proof.
  intros Hne Hfree.
  exists (tool_invocation path_join sdkPath $"update" (update_args targets search_all)
            (Some (if auto_accept then $"pipe" else $"inherit"))
            (if auto_accept then respondFactory $"Do you accept the license" $"y" else None)),
         (JS.join $"," targets).
  split; [|split].
  - unfold downloadAndroidUpdates, runAndroidSDKCommand, logged.
    by destruct (spawn _ w).
  - reflexivity.
  - by apply split_join.
Qed.

Lemma downloadAndroidUpdates_call_witness :
  exists inv joined,
    snd (snd (downloadAndroidUpdates (unit * list invocation) (JS.join $"/")
                (logged (fun _ (w : unit) => ([Exit (Some 0)], w)))
                $"/opt/sdk" [$"platform-tool"; $"tool"] false true (tt, []))) = [inv] /\
    argv inv = [$"update"; $"sdk"; $"-u"] ++ [] ++ [$"-t"; joined] /\
    JS.split "," joined = [$"platform-tool"; $"tool"].
Proof.
  apply (downloadAndroidUpdates_call (JS.join $"/")
           (fun _ (w : unit) => ([Exit (Some 0)], w))
           $"/opt/sdk" [$"platform-tool"; $"tool"] false true tt).
  - discriminate.
  - apply Forall_cons; split; [compute_done|].
    apply Forall_cons; split; [compute_done|apply Forall_nil_2].
Defined.

(** ** Discovery *)

Lemma slice_last_three {A} (front : list A) (a p r : A) :
  JS.slice (front ++ [a; p; r]) (-3) None = [a; p; r].
Proof.
  unfold JS.slice, JS.clamp. simpl. rewrite length_app. simpl.
  replace (Z.to_nat (Z.max (Z.of_nat (length front + 3) + -3) 0)) with (length front) by lia.
  rewrite drop_app_length. apply take_ge. simpl. lia.
Qed.

Lemma split_image_path (sep : ascii) (file a p r : JS.jsstring) :
  image_path sep file a p r -> exists front, JS.split sep file = front ++ [a; p; r].
Proof.
  intros ((dir & ->) & Ha & Hp & Hr). exists (JS.split sep dir).
  by rewrite !split_app, (split_free _ a Ha), (split_free _ p Hp), (split_free _ r Hr).
Qed.

Lemma descriptor_of_image_path (sep : ascii) (file a p r : JS.jsstring) :
  image_path sep file a p r ->
  descriptor_of_file sep file =
  Normal (mkDiscovered (mkAVD a p r (derive_abi p r) (a ++ $"-" ++ p ++ $"-" ++ r)) true).
Proof.
  intros (front & Hsplit)%split_image_path.
  unfold descriptor_of_file. rewrite Hsplit, slice_last_three. reflexivity.
Qed.

(** A path that ends in the three directories of a system image gives the
    descriptor of these three components, whatever comes before them. *)
Theorem descriptor_of_file_image (sep : ascii) (file a p r : JS.jsstring) :
  image_path sep file a p r ->
  descriptor_of_file sep file =
  Normal (mkDiscovered (mkAVD a p r (derive_abi p r) (a ++ $"-" ++ p ++ $"-" ++ r)) true).
Proof. apply descriptor_of_image_path. Qed.

Lemma descriptor_of_file_image_witness :
  descriptor_of_file "/" $"/opt/sdk/system-images/android-24/default/x86" =
  Normal (mkDiscovered
            (mkAVD $"android-24" $"default" $"x86" (derive_abi $"default" $"x86")
                   ($"android-24" ++ $"-" ++ $"default" ++ $"-" ++ $"x86")) true).
Proof.
  apply (descriptor_of_file_image "/" $"/opt/sdk/system-images/android-24/default/x86"
           $"android-24" $"default" $"x86").
  split; [by exists $"/opt/sdk/system-images"|].
  split; [compute_done|]. split; compute_done.
Defined.

Lemma slice_last_three_short {A} (l : list A) :
  (length l <= 3)%nat -> JS.slice l (-3) None = l.
Proof.
  intros Hlen. unfold JS.slice, JS.clamp. simpl.
  replace (Z.to_nat (Z.max (Z.of_nat (length l) + -3) 0)) with 0%nat by lia.
  rewrite drop_0. apply take_ge. lia.
Qed.

(** A path without the separator of the host is taken for a name and
    decoded; a path of two segments gives a descriptor whose architecture is
    [undefined] and whose name ends with a hyphen. *)
Theorem descriptor_of_file_short (sep : ascii) :
  (forall file, sep ∉ file ->
     descriptor_of_file sep file =
     cbind (fromName file) (fun d => Normal (mkDiscovered d true))) /\
  (forall a p, sep ∉ a -> sep ∉ p ->
     descriptor_of_file sep (a ++ sep :: p) =
     Normal (mkDiscovered (mkAVD a p [] (derive_abi p $"undefined") (a ++ $"-" ++ p ++ $"-"))
               false)).
Proof.
  split.
  - intros file Hfree. unfold descriptor_of_file.
    rewrite (split_free _ file Hfree), slice_last_three_short by (simpl; lia).
    reflexivity.
  - intros a p Ha Hp. unfold descriptor_of_file.
    rewrite split_app, (split_free _ a Ha), (split_free _ p Hp).
    rewrite slice_last_three_short by (simpl; lia). reflexivity.
Qed.

Lemma descriptor_of_file_short_witness :
  descriptor_of_file "\" $"C:/sdk/system-images/android-24/default/x86" =
  cbind (fromName $"C:/sdk/system-images/android-24/default/x86")
        (fun d => Normal (mkDiscovered d true)).
Proof.
  apply (proj1 (descriptor_of_file_short "\")). compute_done.
Defined.

(** A runner whose operation is fulfilled on every item is fulfilled, in
    the world the operations leave one after the other. *)
Lemma sequentialForEach_steps {W E T} (func : T -> promise W E unit) (step : T -> W -> W)
    (array : list T) (w : W) :
  (forall x w, x ∈ array -> func x w = (Fulfilled tt, step x w)) ->
  sequentialForEach array func w = (Fulfilled tt, fold_left (fun w x => step x w) array w).
Proof.
  induction array as [|x array IH] using rev_ind; intros Hstep; [done|].
  rewrite sequentialForEach_snoc, fold_left_app. unfold then_, then2.
  rewrite IH by (intros y w' Hy; apply Hstep; set_solver).
  simpl. apply Hstep. set_solver.
Qed.

(** Chaining handlers one after the other, as the source does, and nesting
    the later handlers in an earlier one, as [android] does to keep
    [avdDescriptors] in scope, are the same computation. *)
Lemma then_assoc {W E A B C} (p : promise W E A) (f : A -> promise W E B)
    (g : B -> promise W E C) (w : W) :
  then_ (then_ p f) g w = then_ p (fun a => then_ (f a) g) w.
Proof. unfold then_, then2. by destruct (p w) as [[a|e|] w']. Qed.

(** ** The provisioning run *)

Section ControllerFacts.

Variable S : Type.
Variable os_type : JS.jsstring.
Variable path_join : list JS.jsstring -> JS.jsstring.
Variable path_sep : ascii.
Variable tool : invocation -> S * gmap JS.jsstring JS.jsstring ->
                list child_event * (S * gmap JS.jsstring JS.jsstring).
Variable installer : JS.jsstring -> list JS.jsstring ->
                     S * gmap JS.jsstring JS.jsstring -> S * gmap JS.jsstring JS.jsstring.
Variable glob : JS.jsstring -> S * gmap JS.jsstring JS.jsstring ->
                option JS.jsstring * list JS.jsstring.
Variable ini_parse : JS.jsstring -> gmap JS.jsstring ini_value.
Variable ini_stringify : gmap JS.jsstring ini_value -> JS.jsstring.
Variable JSON_stringify : list JS.jsstring -> JS.jsstring.

Local Abbreviation run :=
  (android S os_type path_join path_sep tool installer glob ini_parse ini_stringify
     JSON_stringify).
Local Abbreviation spawn_w := (spawn_tool S tool).
Local Abbreviation setup := (setupHardwareAcceleration S os_type path_join installer).
Local Abbreviation all_tools := (tools os_type).

Local Abbreviation tool_result := (tool_outcome S tool).

Lemma download_run (sdkPath : JS.jsstring) (targets : list JS.jsstring)
    (search_all auto_accept : bool) (w : world S) :
  downloadAndroidUpdates (world S) path_join spawn_w sdkPath targets search_all auto_accept w
  = (tool_result (update_call path_join sdkPath targets search_all auto_accept) w,
     snd (spawn_w (update_call path_join sdkPath targets search_all auto_accept) w)).
Proof.
  unfold downloadAndroidUpdates, tool_outcome, update_call.
  apply runAndroidSDKCommand_events.
Qed.

Lemma spawn_tool_journal (inv : invocation) (w : world S) :
  journal (snd (spawn_w inv w)) = journal w ++ [Spawned inv].
Proof. unfold spawn_tool. by destruct (tool inv _) as [evs [s fs]]. Qed.

(** When the first download is rejected the run is rejected with its reason
    and has done nothing else: one line logged, one process started. *)
Theorem android_first_download_rejected
    (sdkPath : JS.jsstring) (apiLevels architectures platforms : list JS.jsstring)
    (acceptLicenses : bool) (version : JS.jsstring) (oldAVDs : list JS.jsstring)
    (w : world S) (r : reason) :
  let first := update_call path_join sdkPath all_tools false acceptLicenses in
  tool_result first (record S info_download w) = Rejected r ->
  run sdkPath apiLevels architectures platforms acceptLicenses version oldAVDs w
  = (Rejected r, snd (spawn_w first (record S info_download w))) /\
  journal (snd (run sdkPath apiLevels architectures platforms acceptLicenses version
                  oldAVDs w))
  = journal w ++ [info_download; Spawned first].
Proof.
  intros first Hrej.
  assert (Hrun : run sdkPath apiLevels architectures platforms acceptLicenses version
                   oldAVDs w
                 = (Rejected r, snd (spawn_w first (record S info_download w)))).
  { unfold android, then_, then2. fold info_download.
    rewrite download_run. fold first. by rewrite Hrej. }
  split; [done|]. rewrite Hrun. simpl. rewrite spawn_tool_journal. simpl.
  by rewrite <- app_assoc.
Qed.

(** An undecodable pre-existing name stops the run after the first download
    and the accelerator set-up: the handler that computes the targets throws,
    the run is rejected with the [TypeError] and the second download is not
    started. *)
Theorem android_undecodable_name
    (sdkPath : JS.jsstring) (apiLevels architectures platforms : list JS.jsstring)
    (acceptLicenses : bool) (version : JS.jsstring) (oldAVDs : list JS.jsstring)
    (w : world S) (n : JS.jsstring) :
  let first := update_call path_join sdkPath all_tools false acceptLicenses in
  let w1 := snd (spawn_w first (record S info_download w)) in
  tool_result first (record S info_download w) = Fulfilled tt ->
  n ∈ oldAVDs -> ("-"%char ∉ n) -> variant_token n ->
  run sdkPath apiLevels architectures platforms acceptLicenses version oldAVDs w
  = (Rejected (ErrorObject $"TypeError"), record S info_download_more (setup sdkPath w1)).
Proof.
  intros first w1 Hful Hn Hfree Hvar.
  assert (Hthrow : getAndroidSDKTargets apiLevels architectures platforms oldAVDs
                   = Throw TypeError).
  { apply forEach_add_old_throws. exists n. split; [done|]. by apply fromName_throws. }
  unfold android, then_, then2. fold info_download info_download_more.
  rewrite download_run. fold first. rewrite Hful. cbv beta iota zeta. fold w1.
  by rewrite Hthrow.
Qed.

(** When both downloads are fulfilled and [glob] fails, the run is rejected
    with the error of [glob] in the world the second download left: no file
    is edited, no device made, no manifest written. *)
Theorem android_glob_error
    (sdkPath : JS.jsstring) (apiLevels architectures platforms : list JS.jsstring)
    (acceptLicenses : bool) (version : JS.jsstring) (oldAVDs targets : list JS.jsstring)
    (w : world S) (err : JS.jsstring) (found : list JS.jsstring) :
  let first := update_call path_join sdkPath all_tools false acceptLicenses in
  let second :=
    update_call path_join sdkPath ([$"build-tools-24.0.0"] ++ targets) true acceptLicenses in
  let w1 := snd (spawn_w first (record S info_download w)) in
  let w2 := record S info_download_more (setup sdkPath w1) in
  let w3 := snd (spawn_w second w2) in
  tool_result first (record S info_download w) = Fulfilled tt ->
  getAndroidSDKTargets apiLevels architectures platforms oldAVDs = Normal targets ->
  tool_result second w2 = Fulfilled tt ->
  glob (path_join [sdkPath; $"system-images"; $"*"; $"*"; $"*"]) (sdk w3, files w3)
    = (Some err, found) ->
  run sdkPath apiLevels architectures platforms acceptLicenses version oldAVDs w
  = (Rejected (ErrorObject err), w3).
Proof.
  intros first second w1 w2 w3 Hfirst Htargets Hsecond Hglob.
  unfold android, then_, then2. fold info_download info_download_more.
  rewrite download_run. fold first. rewrite Hfirst. cbv beta iota zeta. fold w1 w2.
  rewrite Htargets, download_run. fold second. rewrite Hsecond. cbv beta iota zeta.
  fold w3. unfold getAVDDescriptors. by rewrite Hglob.
Qed.

Lemma accelerator_journal (sdkPath : JS.jsstring) (w : world S) :
  exists extra, journal (setup sdkPath w) = journal w ++ extra.
Proof.
  unfold setupHardwareAcceleration, spawnSync, record.
  destruct (JS.str_eqb os_type $"Darwin");
    [|destruct (JS.str_eqb os_type $"Windows_NT")]; cbn [sdk files journal].
  - destruct (installer _ _ _) as [s fs]. cbn [journal].
    eexists. by rewrite <- app_assoc.
  - destruct (installer _ _ _) as [s fs]. cbn [journal].
    eexists. by rewrite <- app_assoc.
  - exists []. by rewrite app_nil_r.
Qed.


Local Abbreviation found_descriptor d := (mkDiscovered d true).

Local Abbreviation configure_step sdkPath d w :=
  (mkWorld (sdk w)
     (edited path_join ini_parse ini_stringify sdkPath (descriptor d) (files w))
     (journal w)).

Local Abbreviation make_step sdkPath version d w :=
  (snd (spawn_w (create_call path_join sdkPath (descriptor d) version)
          (snd (spawn_w (delete_call path_join sdkPath (descriptor d) version)
                  (record S (Info (setting_up d)) w))))).

Local Abbreviation make_actions sdkPath version d :=
  [Info (setting_up d);
   Spawned (delete_call path_join sdkPath (descriptor d) version);
   Spawned (create_call path_join sdkPath (descriptor d) version)].

Lemma configure_defined (sdkPath : JS.jsstring) (d : discovered) (w : world S) :
  architecture_defined d = true ->
  configure_discovered S path_join ini_parse ini_stringify sdkPath d w
  = (Fulfilled tt, configure_step sdkPath d w).
Proof.
  intros Hd. unfold configure_discovered, on_files, edited. rewrite Hd.
  by rewrite configureAVDHardware_run.
Qed.

Lemma configure_all_journal (sdkPath : JS.jsstring) (ds : list discovered) (w : world S) :
  journal (fold_left (fun w d => configure_step sdkPath d w) ds w) = journal w.
Proof. revert w. induction ds as [|d ds IH]; intros w; simpl; [done|]. by rewrite IH. Qed.

Section ToolSucceeds.

Hypothesis tool_succeeds :
  forall inv st, promise_state (calls (drive (fst (tool inv st)))) = Fulfilled tt.

Lemma tool_result_fulfilled (inv : invocation) (w : world S) :
  tool_result inv w = Fulfilled tt.
Proof.
  unfold tool_outcome, spawn_tool.
  specialize (tool_succeeds inv (sdk w, files w)).
  by destruct (tool inv (sdk w, files w)) as [evs [s fs]].
Qed.

Lemma make_fulfilled (sdkPath version : JS.jsstring) (d : discovered) (w : world S) :
  makeAVD (world S) path_join spawn_w sdkPath (descriptor d) version
    (record S (Info (setting_up d)) w)
  = (Fulfilled tt, make_step sdkPath version d w).
Proof.
  unfold makeAVD, then_, then2. rewrite runAndroidSDKCommand_events.
  fold (delete_call path_join sdkPath (descriptor d) version).
  fold (tool_result (delete_call path_join sdkPath (descriptor d) version)
          (record S (Info (setting_up d)) w)).
  rewrite tool_result_fulfilled. cbv beta iota zeta. unfold noop, q.
  rewrite runAndroidSDKCommand_events.
  fold (create_call path_join sdkPath (descriptor d) version).
  match goal with
  | |- (promise_state (calls (drive (fst (spawn_w ?i ?v)))), _) = _ =>
      fold (tool_result i v)
  end.
  by rewrite tool_result_fulfilled.
Qed.

Lemma make_all_journal (sdkPath version : JS.jsstring) (ds : list discovered)
    (w : world S) :
  journal (fold_left (fun w d => make_step sdkPath version d w) ds w)
  = journal w ++ concat (map (fun d => make_actions sdkPath version d) ds).
Proof.
  revert w. induction ds as [|d ds IH]; intros w; simpl; [by rewrite app_nil_r|].
  rewrite IH, !spawn_tool_journal. simpl. by rewrite <- !app_assoc.
Qed.

(** After discovery: the hardware of every image is configured, then every
    device is made, then the manifest is written. *)
Lemma provision_fulfilled (sdkPath version : JS.jsstring) (ds : list discovered)
    (w : world S) :
  Forall (fun d => architecture_defined d = true) ds ->
  exists wf,
    provision S path_join tool ini_parse ini_stringify JSON_stringify sdkPath version ds w
    = (Fulfilled tt, wf) /\
    files wf !! manifest path_join sdkPath
    = Some (JSON_stringify (map (fun d => name (descriptor d)) ds)) /\
    journal wf = journal w ++ [info_configure]
                 ++ concat (map (fun d => make_actions sdkPath version d) ds)
                 ++ [info_complete].
Proof.
  intros Hds. unfold provision, then_, then2. fold info_configure info_complete.
  rewrite (sequentialForEach_steps _ (fun d w => configure_step sdkPath d w)).
  2:{ intros d w' Hd. apply configure_defined.
      by apply (proj1 (Forall_forall _ _) Hds). }
  rewrite (sequentialForEach_steps _ (fun d w => make_step sdkPath version d w)).
  2:{ intros d w' _. apply make_fulfilled. }
  unfold on_files, fs_writeFile. cbv beta iota zeta.
  eexists. split; [reflexivity|]. split.
  - cbn [files record]. apply lookup_insert_eq.
  - cbn [journal record]. rewrite make_all_journal, configure_all_journal.
    cbn [journal record]. by rewrite <- !app_assoc.
Qed.

Lemma discover_images (found : list JS.jsstring) (descs : list AVDDescriptor) :
  Forall2 (fun file d => exists a p r,
             image_path path_sep file a p r /\
             d = mkAVD a p r (derive_abi p r) (a ++ $"-" ++ p ++ $"-" ++ r)) found descs ->
  map_completion (descriptor_of_file path_sep) found
  = Normal (map (fun d => found_descriptor d) descs).
Proof.
  induction 1 as [|file d found descs (a & p & r & Hpath & ->) _ IH]; simpl; [done|].
  by rewrite (descriptor_of_image_path _ _ _ _ _ Hpath), IH.
Qed.

(** Discovery reports the error of [glob]; otherwise it is fulfilled with one
    descriptor for every image directory found, in the order of [glob], and
    changes nothing. *)
Theorem getAVDDescriptors_outcome (sdkPath : JS.jsstring) (w : world S) :
  (forall err found,
     glob (path_join [sdkPath; $"system-images"; $"*"; $"*"; $"*"]) (sdk w, files w)
       = (Some err, found) ->
     getAVDDescriptors S path_join path_sep glob sdkPath w
     = (Rejected (ErrorObject err), w)) /\
  (forall found descs,
     glob (path_join [sdkPath; $"system-images"; $"*"; $"*"; $"*"]) (sdk w, files w)
       = (None, found) ->
     Forall2 (fun file d => exists a p r,
                image_path path_sep file a p r /\
                d = mkAVD a p r (derive_abi p r) (a ++ $"-" ++ p ++ $"-" ++ r))
             found descs ->
     getAVDDescriptors S path_join path_sep glob sdkPath w
     = (Fulfilled (map (fun d => found_descriptor d) descs), w)).
Proof.
  split.
  - intros err found Hglob. unfold getAVDDescriptors. by rewrite Hglob.
  - intros found descs Hglob Hfound. unfold getAVDDescriptors.
    by rewrite Hglob, (discover_images _ _ Hfound).
Qed.


End ToolSucceeds.

End ControllerFacts.

Lemma getAVDDescriptors_outcome_witness :
  getAVDDescriptors unit (JS.join $"/") "/" SampleHost.glob_image $"/opt/sdk" SampleHost.start
  = (Fulfilled
       (map (fun d => mkDiscovered d true)
            [mkAVD $"android-24" $"default" $"x86" (derive_abi $"default" $"x86")
                   ($"android-24" ++ $"-" ++ $"default" ++ $"-" ++ $"x86")]),
     SampleHost.start).
Proof.
  apply (proj2 (getAVDDescriptors_outcome unit (JS.join $"/") "/" SampleHost.glob_image
                  $"/opt/sdk" SampleHost.start)
           [$"/opt/sdk/system-images/android-24/default/x86"]); [reflexivity|].
  constructor; [|constructor].
  exists $"android-24", $"default", $"x86". split; [|reflexivity].
  split; [by exists $"/opt/sdk/system-images"|]. split; [compute_done|].
  split; compute_done.
Defined.

Lemma android_first_download_rejected_witness :
  fst (SampleHost.run 1 SampleHost.glob_image []) = Rejected (ExitCode 1) /\
  length (journal (snd (SampleHost.run 1 SampleHost.glob_image []))) = 2%nat.
Proof.
  destruct (android_first_download_rejected unit $"Linux" (JS.join $"/") "/"
              (SampleHost.tool 1) SampleHost.installer SampleHost.glob_image
              OneEntry.parse OneEntry.stringify (JS.join $",")
              $"/opt/sdk" [$"24"] [$"x86"] [$"default"] true $"1" []
              SampleHost.start (ExitCode 1) eq_refl) as [Hrun Hjournal].
  unfold SampleHost.run. split; [by rewrite Hrun|by rewrite Hjournal].
Defined.

Lemma android_undecodable_name_witness :
  fst (SampleHost.run 0 SampleHost.glob_image [$"v7a"])
  = Rejected (ErrorObject $"TypeError").
Proof.
  unfold SampleHost.run.
  rewrite (android_undecodable_name unit $"Linux" (JS.join $"/") "/"
             (SampleHost.tool 0) SampleHost.installer SampleHost.glob_image
             OneEntry.parse OneEntry.stringify (JS.join $",")
             $"/opt/sdk" [$"24"] [$"x86"] [$"default"] true $"1" [$"v7a"]
             SampleHost.start $"v7a" eq_refl).
  - reflexivity.
  - by left.
  - compute_done.
  - exists [], [("7")%char], [("a")%char], []. repeat split; try done; by repeat constructor.
Defined.

Lemma android_glob_error_witness :
  fst (SampleHost.run 0 SampleHost.glob_error []) = Rejected (ErrorObject $"EACCES").
Proof.
  unfold SampleHost.run.
  by rewrite (android_glob_error unit $"Linux" (JS.join $"/") "/"
                (SampleHost.tool 0) SampleHost.installer SampleHost.glob_error
                OneEntry.parse OneEntry.stringify (JS.join $",")
                $"/opt/sdk" [$"24"] [$"x86"] [$"default"] true $"1" []
                [$"android-24"; $"sys-img-x86-android-24"]
                SampleHost.start $"EACCES" [] eq_refl eq_refl eq_refl eq_refl).
Defined.


Example sample_run_journal :
  map (fun a => match a with
                | Spawned inv => argv inv
                | SpawnedSync c args => c :: args
                | Info m | Console m => [m]
                end)
      (journal (snd (SampleHost.run 0 SampleHost.glob_image [])))
  = [[$"android-sdk: Downloading additional SDK updates"];
     [$"update"; $"sdk"; $"-u"; $"-t"; $"platform-tool,tool"];
     [$"android-sdk: Downloading more additional SDK updates (this may take a while)"];
     [$"update"; $"sdk"; $"-u"; $"-a"; $"-t";
      $"build-tools-24.0.0,android-24,sys-img-x86-android-24"];
     [$"android-sdk: Configuring virtual device hardware"];
     [$"android-sdk: Setting up virtual device " ++ ["034"%char]
      ++ $"android-24-default-x86" ++ ["034"%char]];
     [$"delete"; $"avd"; $"--name"; $"android-24-default-x86-v1-wd-manager"];
     [$"create"; $"avd"; $"--name"; $"android-24-default-x86-v1-wd-manager";
      $"--target"; $"android-24"; $"--abi"; $"x86"];
     [$"android-sdk: Initialization complete"]].
Proof. vm_compute. reflexivity. Qed.
